(** * Parallel matrix-trace benchmark (Laba_2/parallel_trace.cpp)

    A shallow embedding of the trace reducer [calculate_trace], the worker
    [trace_worker] and the generate / partition / launch / join / aggregate
    steps of [main], followed by the properties of the partitioning scheme
    and of the computed totals.

    Code whose behaviour C++ leaves undefined for some inputs (a vector
    index out of range, a zero divisor) returns [None] there.  The threads
    of a trial share the read-only collection and each writes its own slot
    of [partial_results]; they are modelled as run to completion one after
    the other, and [join_all_permutation] shows that the order is
    immaterial. *)

From Stdlib Require Import ZArith Lia.
From stdpp Require Import base tactics option list list_numbers.

Local Open Scope Z_scope.

(** ** Fixed-width integers

    [int] is 32 bits and [long long] 64 bits, both two's complement.  A
    value is kept in [Z]; every arithmetic result is reduced back into the
    range of its type, so that a sum that leaves the range wraps around, as
    it does on the machine.  That the program's own sums never leave the
    range is a separate statement ([accumulates_exactly]). *)

Definition wrap (bits z : Z) : Z :=
  (z + 2 ^ (bits - 1)) `mod` 2 ^ bits - 2 ^ (bits - 1).

Definition INT_MIN : Z := - 2 ^ 31.
Definition INT_MAX : Z := 2 ^ 31 - 1.
Definition LLONG_MIN : Z := - 2 ^ 63.
Definition LLONG_MAX : Z := 2 ^ 63 - 1.

Definition is_int (z : Z) : Prop := INT_MIN ≤ z ≤ INT_MAX.
Definition is_ll (z : Z) : Prop := LLONG_MIN ≤ z ≤ LLONG_MAX.

Definition int_add (a b : Z) : Z := wrap 32 (a + b).
Definition int_sub (a b : Z) : Z := wrap 32 (a - b).
Definition int_mul (a b : Z) : Z := wrap 32 (a * b).

(** [a / b] on [int]: truncation towards zero; a zero divisor has no
    defined result. *)
Definition int_div (a b : Z) : option Z :=
  if decide (b = 0) then None else Some (wrap 32 (a ÷ b)).

(** [a += b] on [long long]. *)
Definition ll_add (a b : Z) : Z := wrap 64 (a + b).

(** ** Vectors

    [std::vector<T>] is a list; [v[i]] with an [int] index has a value
    only inside the vector. *)

Definition vec_at {A} (v : list A) (i : Z) : option A :=
  if decide (0 ≤ i) then v !! Z.to_nat i else None.

(** [v[i] = x] *)

Definition vec_set {A} (v : list A) (i : Z) (x : A) : option (list A) :=
  if decide (0 ≤ i < Z.of_nat (length v)) then Some (<[Z.to_nat i := x]> v) else None.

(** [std::vector<T> v(n, x)]: [n] copies of [x]; a negative [int] count is
    not a size the constructor accepts. *)
Definition vec_make {A} (n : Z) (x : A) : option (list A) :=
  if decide (0 ≤ n) then Some (replicate (Z.to_nat n) x) else None.

(** using Matrix = std::vector<std::vector<int>> *)
Abbreviation Matrix := (list (list Z)).

(** ** Counted loops

    [for (int i = lo; i < hi; ++i) body] threads a state through
    [hi - lo] iterations (none when [hi <= lo]); an iteration without a
    defined result ends the run.  The counter stays below [hi], an
    [int], so [++i] never leaves the range of [int]. *)

Fixpoint for_loop {St} (n : nat) (i : Z) (body : Z → St → option St) (s : St)
  : option St :=
  match n with
  | O => Some s
  | S n' => s' ← body i s; for_loop n' (i + 1) body s'
  end.

Definition for_range {St} (lo hi : Z) (body : Z → St → option St) (s : St)
  : option St :=
  for_loop (Z.to_nat (hi - lo)) lo body s.

(** ** The program, over its constants

    The functions are those of the source, with the global constants
    NUM_MATRICES and MATRIX_SIZE as parameters; the program itself, at
    1000 and 50, follows the section. *)

Module Param.
Section WithConstants.

Variables NUM_MATRICES MATRIX_SIZE : Z.

(** trace += matrix[i][i]; *)
Definition trace_step (matrix : Matrix) (i trace : Z) : option Z :=
  row ← vec_at matrix i;
  x ← vec_at row i;
  Some (ll_add trace x).

Definition calculate_trace (matrix : Matrix) : option Z :=
  for_range 0 MATRIX_SIZE (trace_step matrix) 0.

(** partial_sum += calculate_trace(matrices[i]); *)
Definition worker_step (matrices : list Matrix) (i partial_sum : Z) : option Z :=
  matrix ← vec_at matrices i;
  t ← calculate_trace matrix;
  Some (ll_add partial_sum t).

(** The value is what the worker stores through its [result] reference. *)
Definition trace_worker (matrices : list Matrix) (start_index end_index : Z)
  : option Z :=
  for_range start_index end_index (worker_step matrices) 0.

(** The bounds handed to the thread launched at iteration [i]. *)
Definition thread_range (num_threads matrices_per_thread i : Z) : Z * Z :=
  let start_index := int_mul i matrices_per_thread in
  let end_index :=
    if decide (i = int_sub num_threads 1) then NUM_MATRICES
    else int_add start_index matrices_per_thread in
  (start_index, end_index).

(** A launched thread: its bounds and the index of the slot of
    [partial_results] it holds a reference to. *)
Record thread : Type := Thread { t_start : Z; t_end : Z; t_slot : Z }.

(** threads.emplace_back(trace_worker, ..., std::ref(partial_results[i])) *)
Definition launch_step (num_threads matrices_per_thread : Z) (i : Z)
    (threads : list thread) : option (list thread) :=
  let '(start_index, end_index) := thread_range num_threads matrices_per_thread i in
  Some (threads ++ [Thread start_index end_index i]).

(** One thread run to completion: the worker's sum lands in its slot. *)
Definition run_thread (matrices : list Matrix) (t : thread)
    (partial_results : list Z) : option (list Z) :=
  r ← trace_worker matrices (t_start t) (t_end t);
  vec_set partial_results (t_slot t) r.

(** for (auto& t : threads) t.join();  once every thread is joined each
    has run to completion; here they do so in the order of the list. *)
Fixpoint join_all (matrices : list Matrix) (threads : list thread)
    (partial_results : list Z) : option (list Z) :=
  match threads with
  | [] => Some partial_results
  | t :: rest =>
      partial_results' ← run_thread matrices t partial_results;
      join_all matrices rest partial_results'
  end.

(** for (long long res : partial_results) total_trace += res; *)
Definition aggregate (partial_results : list Z) : Z :=
  foldl ll_add 0 partial_results.

(** The threads of a trial, in launch order. *)
Definition launch (num_threads : Z) : option (list thread) :=
  matrices_per_thread ← int_div NUM_MATRICES num_threads;
  for_range 0 num_threads (launch_step num_threads matrices_per_thread) [].

(** The slots once every thread of a trial has been joined. *)
Definition trial_slots (matrices : list Matrix) (num_threads : Z)
  : option (list Z) :=
  partial_results ← vec_make num_threads 0;
  threads ← launch num_threads;
  join_all matrices threads partial_results.

(** The body of the loop over [thread_counts]: the printed total. *)
Definition trial (matrices : list Matrix) (num_threads : Z) : option Z :=
  partial_results ← trial_slots matrices num_threads;
  Some (aggregate partial_results).

(** matrices[i][j][k] = distrib(gen);  the generator is the sequence
    [draws] of the values it hands out, with the count of those used. *)
Definition fill_cell (draws : nat → Z) (i j k : Z) (st : list Matrix * nat)
  : option (list Matrix * nat) :=
  let '(matrices, used) := st in
  matrix ← vec_at matrices i;
  row ← vec_at matrix j;
  row' ← vec_set row k (draws used);
  matrix' ← vec_set matrix j row';
  matrices' ← vec_set matrices i matrix';
  Some (matrices', S used).

Definition generate (draws : nat → Z) : option (list Matrix) :=
  row ← vec_make MATRIX_SIZE 0;
  matrix ← vec_make MATRIX_SIZE row;
  matrices ← vec_make NUM_MATRICES matrix;
  st ← for_range 0 NUM_MATRICES (λ i,
          for_range 0 MATRIX_SIZE (λ j,
            for_range 0 MATRIX_SIZE (λ k, fill_cell draws i j k)))
        (matrices, 0%nat);
  Some st.1.

Definition thread_counts : list Z := [1; 2; 4; 8].

(** [main] has no parameters.  Its result is the list of reports, one
    (thread count, total) per trial, and the exit code; the measured
    times are not part of the model. *)
Definition main (draws : nat → Z) : option (list (Z * Z) * Z) :=
  matrices ← generate draws;
  reports ← mapM (λ num_threads,
               total_trace ← trial matrices num_threads;
               Some (num_threads, total_trace)) thread_counts;
  Some (reports, 0).

End WithConstants.
End Param.

(** ** The program at its constants *)

Definition NUM_MATRICES : Z := 1000.
Definition MATRIX_SIZE : Z := 50.
Definition RANDOM_MIN : Z := -100.
Definition RANDOM_MAX : Z := 100.

Definition calculate_trace : Matrix → option Z :=
  Param.calculate_trace MATRIX_SIZE.
Definition trace_worker : list Matrix → Z → Z → option Z :=
  Param.trace_worker MATRIX_SIZE.
Definition trial_slots : list Matrix → Z → option (list Z) :=
  Param.trial_slots NUM_MATRICES MATRIX_SIZE.
Definition trial : list Matrix → Z → option Z :=
  Param.trial NUM_MATRICES MATRIX_SIZE.
Definition generate : (nat → Z) → option (list Matrix) :=
  Param.generate NUM_MATRICES MATRIX_SIZE.
Definition thread_counts : list Z := Param.thread_counts.
Definition main : (nat → Z) → option (list (Z * Z) * Z) :=
  Param.main NUM_MATRICES MATRIX_SIZE.

(** ** Specification-side notions *)

Definition sumZ (l : list Z) : Z := foldr Z.add 0 l.

(** The element at row [i], column [j], when there is one. *)
Definition cell (matrix : Matrix) (i j : Z) : option Z :=
  row ← vec_at matrix i; vec_at row j.

(** The main diagonal of the leading [size] x [size] block. *)
Definition diagonal (size : Z) (matrix : Matrix) : list Z :=
  (λ i, default 0 (cell matrix i i)) <$> seqZ 0 size.

(** The trace as the specification words it: the sum of the elements at
    positions (i, i) for i in [0, size). *)
Definition trace_spec (size : Z) (matrix : Matrix) : Z :=
  sumZ (diagonal size matrix).

(** A [size] x [size] grid whose elements all satisfy [P]. *)
Definition square_of (P : Z → Prop) (size : Z) (matrix : Matrix) : Prop :=
  Z.of_nat (length matrix) = size ∧
  Forall (λ row, Z.of_nat (length row) = size ∧ Forall P row) matrix.

Definition in_value_range (lo hi z : Z) : Prop := lo ≤ z ≤ hi.

(** The half-open index range [start, end) as a list of indices. *)
Definition indices (r : Z * Z) : list Z := seqZ r.1 (r.2 - r.1).

(** The trace of the matrix at index [i] of the collection, when both the
    index and the reads of the reducer are in range. *)
Definition matrix_trace (size : Z) (matrices : list Matrix) (i : Z) : option Z :=
  matrix ← vec_at matrices i; Param.calculate_trace size matrix.

(** The traces of all matrices of a collection, in order. *)
Definition traces (size : Z) (matrices : list Matrix) : list Z :=
  (λ matrix, default 0 (Param.calculate_trace size matrix)) <$> matrices.

(** The traces of the matrices of one range. *)
Definition traces_in (size : Z) (matrices : list Matrix) (r : Z * Z) : list Z :=
  (λ i, default 0 (matrix_trace size matrices i)) <$> indices r.

(** The ranges handed to the threads of a trial with [num_threads]
    threads over a collection of [num_matrices], in launch order. *)
Definition partitions (num_matrices num_threads : Z) : list (Z * Z) :=
  (λ t, (Param.t_start t, Param.t_end t))
    <$> default [] (Param.launch num_matrices num_threads).

(** The ranges as the specification words them: worker [k] receives
    [k * (M / N), (k + 1) * (M / N)), except the last worker, which
    receives [(N - 1) * (M / N), M). *)
Definition range_spec (M N k : Z) : Z * Z :=
  if decide (k = N - 1) then ((N - 1) * (M / N), M)
  else (k * (M / N), (k + 1) * (M / N)).

Definition range_size (r : Z * Z) : Z := r.2 - r.1.

Definition in_range (r : Z * Z) (j : Z) : Prop := r.1 ≤ j < r.2.

(** The accumulation [acc += x] for the [x] of [xs] in turn, as the loops
    perform it: every sum, taken exactly, is a [long long], so that no
    addition wraps. *)
Fixpoint accumulates_exactly (acc : Z) (xs : list Z) : Prop :=
  match xs with
  | [] => True
  | x :: xs' => is_ll (acc + x) ∧ accumulates_exactly (ll_add acc x) xs'
  end.

(** A collection of [count] square matrices of size [size] whose elements
    all satisfy [P]. *)
Definition collection_of (P : Z → Prop) (count size : Z)
    (matrices : list Matrix) : Prop :=
  Z.of_nat (length matrices) = count ∧ Forall (square_of P size) matrices.

(** A collection as [main] generates it: NUM_MATRICES matrices of
    MATRIX_SIZE x MATRIX_SIZE elements in [RANDOM_MIN, RANDOM_MAX]. *)
Definition program_collection (matrices : list Matrix) : Prop :=
  collection_of (in_value_range RANDOM_MIN RANDOM_MAX)
    NUM_MATRICES MATRIX_SIZE matrices.

(** The element at [matrices[i][j][k]], when there is one. *)
Definition cell3 (matrices : list Matrix) (i j k : Z) : option Z :=
  matrix ← vec_at matrices i; cell matrix j k.

(** The state of the generation loops once the cells before linear
    position [p] (matrix by matrix, row by row, left to right) are
    filled: [p] draws are used, the collection has kept its dimensions,
    and each of those cells holds the draw of its own position. *)
Definition filled_upto (draws : nat → Z) (count size p : Z)
    (st : list Matrix * nat) : Prop :=
  st.2 = Z.to_nat p ∧
  collection_of (λ _, True) count size st.1 ∧
  ∀ i j k, 0 ≤ i < count → 0 ≤ j < size → 0 ≤ k < size →
           i * size * size + j * size + k < p →
           cell3 st.1 i j k =
             Some (draws (Z.to_nat (i * size * size + j * size + k))).

(** The sum, over the matrices i and the diagonal positions d, of the
    draws that the generation stores at [matrices[i][d][d]]. *)
Definition expected_total (draws : nat → Z) : Z :=
  sumZ ((λ i, sumZ ((λ d, draws (Z.to_nat (2500 * i + 51 * d))) <$> seqZ 0 50))
          <$> seqZ 0 1000).

#[global] Instance is_int_dec z : Decision (is_int z).
Proof. unfold is_int. apply _. Defined.

#[global] Instance in_value_range_dec lo hi z : Decision (in_value_range lo hi z).
Proof. unfold in_value_range. apply _. Defined.

#[global] Instance square_of_dec P `{!∀ z, Decision (P z)} size matrix :
  Decision (square_of P size matrix).
Proof. unfold square_of. apply _. Defined.

#[global] Instance program_collection_dec matrices :
  Decision (program_collection matrices).
Proof. unfold program_collection, collection_of. apply _. Defined.

(** ** Arithmetic of the fixed-width types *)

Section Wrap.

Implicit Types a b c z : Z.

Lemma wrap_half bits : 0 < bits → 2 ^ bits = 2 * 2 ^ (bits - 1).
Proof.
  intros Hb. rewrite <- Z.pow_succ_r by lia. f_equal. lia.
Qed.

Lemma wrap_small bits z :
  0 < bits → - 2 ^ (bits - 1) ≤ z < 2 ^ (bits - 1) → wrap bits z = z.
Proof.
  intros Hb Hz. unfold wrap. pose proof (wrap_half bits Hb) as Hh.
  rewrite Z.mod_small; lia.
Qed.

Lemma wrap_range bits z :
  0 < bits → - 2 ^ (bits - 1) ≤ wrap bits z < 2 ^ (bits - 1).
Proof.
  intros Hb. unfold wrap. pose proof (wrap_half bits Hb) as Hh.
  assert (0 < 2 ^ (bits - 1)) by (apply Z.pow_pos_nonneg; lia).
  pose proof (Z.mod_pos_bound (z + 2 ^ (bits - 1)) (2 ^ bits)). lia.
Qed.

Lemma wrap_add_l bits a b : wrap bits (wrap bits a + b) = wrap bits (a + b).
Proof.
  unfold wrap. f_equal.
  replace (_ `mod` _ - _ + b + 2 ^ (bits - 1))
    with ((a + 2 ^ (bits - 1)) `mod` 2 ^ bits + b) by lia.
  rewrite Zplus_mod_idemp_l. f_equal. lia.
Qed.

Lemma wrap_add_r bits a b : wrap bits (a + wrap bits b) = wrap bits (a + b).
Proof. rewrite (Z.add_comm a), wrap_add_l. f_equal. lia. Qed.

Lemma int_small z : is_int z → wrap 32 z = z.
Proof. unfold is_int, INT_MIN, INT_MAX. intros. apply wrap_small; lia. Qed.

Lemma ll_small z : is_ll z → wrap 64 z = z.
Proof. unfold is_ll, LLONG_MIN, LLONG_MAX. intros. apply wrap_small; lia. Qed.

Lemma ll_add_is_ll a b : is_ll (ll_add a b).
Proof.
  unfold is_ll, LLONG_MIN, LLONG_MAX, ll_add.
  pose proof (wrap_range 64 (a + b)). lia.
Qed.

End Wrap.

(** ** Vector reads *)

Lemma vec_at_Some {A} (v : list A) i x :
  vec_at v i = Some x ↔ 0 ≤ i ∧ v !! Z.to_nat i = Some x.
Proof. unfold vec_at. case_decide; [tauto | split; [done | lia]]. Qed.

Lemma vec_at_is_Some {A} (v : list A) i :
  is_Some (vec_at v i) ↔ 0 ≤ i < Z.of_nat (length v).
Proof.
  unfold vec_at. case_decide.
  - rewrite lookup_lt_is_Some. lia.
  - split; [intros [? ?]; done | lia].
Qed.

Lemma vec_at_nat {A} (v : list A) (n : nat) : vec_at v (Z.of_nat n) = v !! n.
Proof. unfold vec_at. case_decide; [by rewrite Nat2Z.id | lia]. Qed.

(** ** Loops that accumulate a sum *)

Lemma seqZ_of_nat_S i (n : nat) :
  seqZ i (Z.of_nat (S n)) = i :: seqZ (i + 1) (Z.of_nat n).
Proof.
  rewrite seqZ_cons by lia. f_equal. f_equal; lia.
Qed.

Lemma for_loop_accumulate (n : nat) i body (f : Z → option Z) acc :
  (∀ j a, body j a = x ← f j; Some (ll_add a x)) →
  for_loop n i body acc =
  xs ← mapM f (seqZ i (Z.of_nat n)); Some (foldl ll_add acc xs).
Proof.
  intros Hbody. revert i acc. induction n as [|n IH]; intros i acc.
  - done.
  - rewrite seqZ_of_nat_S. cbn [for_loop mapM]. rewrite Hbody.
    destruct (f i) as [x|]; simpl; [|done].
    rewrite IH. by destruct (mapM f _).
Qed.

Lemma for_range_accumulate lo hi body (f : Z → option Z) acc :
  (∀ j a, body j a = x ← f j; Some (ll_add a x)) →
  for_range lo hi body acc =
  xs ← mapM f (seqZ lo (hi - lo)); Some (foldl ll_add acc xs).
Proof.
  intros Hbody. unfold for_range. rewrite (for_loop_accumulate _ _ _ f) by done.
  destruct (decide (0 ≤ hi - lo)).
  - by rewrite Z2Nat.id.
  - rewrite Z2Nat.nonpos by lia. by rewrite (seqZ_nil lo (hi - lo)) by lia.
Qed.

Lemma foldl_ll_add acc xs :
  foldl ll_add (wrap 64 acc) xs = wrap 64 (acc + sumZ xs).
Proof.
  revert acc. induction xs as [|x xs IH]; intros acc; simpl.
  - by rewrite Z.add_0_r.
  - unfold ll_add at 2. rewrite wrap_add_l, IH. f_equal. lia.
Qed.

Lemma aggregate_sum xs : Param.aggregate xs = wrap 64 (sumZ xs).
Proof. apply (foldl_ll_add 0). Qed.

Lemma sumZ_cons x xs : sumZ (x :: xs) = x + sumZ xs.
Proof. done. Qed.

Lemma sumZ_app xs ys : sumZ (xs ++ ys) = sumZ xs + sumZ ys.
Proof. induction xs as [|x xs IH]; simpl; lia. Qed.

Lemma wrap_sumZ_wrap xs : wrap 64 (sumZ (wrap 64 <$> xs)) = wrap 64 (sumZ xs).
Proof.
  induction xs as [|x xs IH]; [done|].
  rewrite fmap_cons, !sumZ_cons.
  by rewrite wrap_add_l, <- wrap_add_r, IH, wrap_add_r.
Qed.

(** ** The trace reducer *)

Lemma trace_step_cell matrix j a :
  Param.trace_step matrix j a = x ← cell matrix j j; Some (ll_add a x).
Proof. unfold Param.trace_step, cell. by destruct (vec_at matrix j). Qed.

(** The reducer reads the cells (i, i) for i = 0, ..., size - 1, in this
    order, whatever the dimensions of its argument. *)
Lemma calculate_trace_reads size matrix :
  Param.calculate_trace size matrix =
  xs ← mapM (λ i, cell matrix i i) (seqZ 0 size); Some (wrap 64 (sumZ xs)).
Proof.
  unfold Param.calculate_trace.
  rewrite (for_range_accumulate _ _ _ (λ i, cell matrix i i))
    by apply trace_step_cell.
  rewrite Z.sub_0_r. destruct (mapM _ _); simpl; [|done].
  f_equal. apply (foldl_ll_add 0).
Qed.

Lemma mapM_default (f : Z → option Z) l :
  Forall (λ i, is_Some (f i)) l →
  mapM f l = Some ((λ i, default 0 (f i)) <$> l).
Proof.
  intros H. apply mapM_Some_2. induction H as [|i l [x Hx] _ IH]; simpl.
  - constructor.
  - constructor; [by rewrite Hx | done].
Qed.

Lemma cell_is_Some matrix i j :
  is_Some (cell matrix i j) ↔
  ∃ row, vec_at matrix i = Some row ∧ 0 ≤ j < Z.of_nat (length row).
Proof.
  unfold cell. destruct (vec_at matrix i) as [row|]; simpl.
  - rewrite vec_at_is_Some. split.
    + intros Hj. by exists row.
    + by intros (row' & [= <-] & Hj).
  - split; [intros [? ?]; done | intros (? & ? & _); done].
Qed.

Lemma square_cell P size matrix i j :
  square_of P size matrix → 0 ≤ i < size → 0 ≤ j < size →
  ∃ x, cell matrix i j = Some x ∧ P x.
Proof.
  intros [Hlen Hrows] Hi Hj.
  destruct (vec_at_is_Some matrix i) as [_ [row Hrow]]; [lia|].
  pose proof Hrow as Hrow'. apply vec_at_Some in Hrow' as [_ Hin].
  rewrite Forall_lookup in Hrows. destruct (Hrows _ _ Hin) as [Hlen' HP].
  destruct (vec_at_is_Some row j) as [_ [x Hx]]; [lia|].
  exists x. split.
  - unfold cell. by rewrite Hrow.
  - apply vec_at_Some in Hx as [_ Hx]. rewrite Forall_lookup in HP. eauto.
Qed.

Lemma square_diagonal P size matrix :
  square_of P size matrix →
  mapM (λ i, cell matrix i i) (seqZ 0 size) = Some (diagonal size matrix) ∧
  Forall P (diagonal size matrix) ∧
  Z.of_nat (length (diagonal size matrix)) = Z.max 0 size.
Proof.
  intros Hsq. split; [|split].
  - apply mapM_default. apply Forall_seqZ. intros i Hi.
    destruct (square_cell P size matrix i i) as (x & -> & _); [done|lia|lia|done].
  - unfold diagonal. apply Forall_fmap, Forall_seqZ. intros i Hi. simpl.
    destruct (square_cell P size matrix i i) as (x & -> & HP); [done|lia|lia|done].
  - unfold diagonal. rewrite length_fmap, length_seqZ. lia.
Qed.

(** ** Sums of bounded values *)

Lemma sumZ_bounds lo hi xs :
  Forall (in_value_range lo hi) xs →
  Z.of_nat (length xs) * lo ≤ sumZ xs ≤ Z.of_nat (length xs) * hi.
Proof.
  induction 1 as [|x xs Hx _ IH].
  - simpl. lia.
  - rewrite sumZ_cons, length_cons. unfold in_value_range in Hx. lia.
Qed.

(** The sum of at most [INT_MAX] values of type [int] fits a [long long]. *)
Lemma sum_of_ints_is_ll xs :
  Forall is_int xs → Z.of_nat (length xs) ≤ INT_MAX → is_ll (sumZ xs).
Proof.
  intros Hxs Hlen. apply (sumZ_bounds INT_MIN INT_MAX) in Hxs.
  unfold is_ll, LLONG_MIN, LLONG_MAX, INT_MIN, INT_MAX in *. nia.
Qed.

Lemma calculate_trace_exact size matrix :
  size ≤ INT_MAX → square_of is_int size matrix →
  Param.calculate_trace size matrix = Some (trace_spec size matrix).
Proof.
  intros Hsize Hsq. rewrite calculate_trace_reads.
  destruct (square_diagonal _ _ _ Hsq) as (-> & Hint & Hlen). simpl.
  f_equal. apply ll_small, sum_of_ints_is_ll; [done|].
  unfold INT_MAX in *. lia.
Qed.

Lemma calculate_trace_is_Some size matrix :
  is_Some (Param.calculate_trace size matrix) ↔
  ∀ i, 0 ≤ i < size → is_Some (cell matrix i i).
Proof.
  rewrite calculate_trace_reads.
  transitivity (is_Some (mapM (λ i, cell matrix i i) (seqZ 0 size))).
  - destruct (mapM _ _); simpl; split; intros [? ?]; eauto; done.
  - rewrite mapM_is_Some, Forall_seqZ. split; intros H i Hi; apply H; lia.
Qed.

Lemma diagonal_in_range size matrix :
  (∀ i, 0 ≤ i < size → is_Some (cell matrix i i)) ↔
  size ≤ Z.of_nat (length matrix) ∧
  ∀ (i : nat) row, Z.of_nat i < size → matrix !! i = Some row →
                   (i + 1 ≤ length row)%nat.
Proof.
  split.
  - intros H. split.
    + destruct (decide (size ≤ 0)) as [|Hpos]; [lia|].
      destruct (H (size - 1)) as [x Hx]; [lia|].
      assert (is_Some (cell matrix (size - 1) (size - 1))) as Hc by eauto.
      apply cell_is_Some in Hc as (row & Hrow & _).
      assert (is_Some (vec_at matrix (size - 1))) as Hr by eauto.
      apply vec_at_is_Some in Hr. lia.
    + intros i row Hi Hrow.
      destruct (H (Z.of_nat i)) as [x Hx]; [lia|].
      assert (is_Some (cell matrix (Z.of_nat i) (Z.of_nat i))) as Hc by eauto.
      apply cell_is_Some in Hc as (row' & Hrow' & Hlen).
      rewrite vec_at_nat, Hrow in Hrow'. injection Hrow' as <-. lia.
  - intros [Hlen Hrows] i Hi. apply cell_is_Some.
    destruct (vec_at_is_Some matrix i) as [_ [row Hrow]]; [lia|].
    exists row. split; [done|].
    apply vec_at_Some in Hrow as [_ Hrow].
    specialize (Hrows (Z.to_nat i) row). rewrite Z2Nat.id in Hrows by lia.
    specialize (Hrows (proj2 Hi) Hrow). lia.
Qed.

(** C3.  For a well-formed square matrix (MATRIX_SIZE rows of MATRIX_SIZE
    elements of type int) calculate_trace returns the sum of the elements
    at the positions (i, i), i in [0, MATRIX_SIZE): the exact sum, which
    always fits a long long.  The function's only effect is the value it
    returns; its argument is read, never written. *)
Theorem calculate_trace_sums_diagonal (matrix : Matrix) :
  square_of is_int MATRIX_SIZE matrix →
  calculate_trace matrix = Some (trace_spec MATRIX_SIZE matrix).
Proof.
  intros Hsq. apply calculate_trace_exact; [done|exact Hsq].
Qed.

Lemma calculate_trace_sums_diagonal_witness :
  let matrix := (λ i, (λ j, i * 50 + j) <$> seqZ 0 50) <$> seqZ 0 50 in
  square_of is_int MATRIX_SIZE matrix ∧
  calculate_trace matrix = Some 62475.
Proof.
  intros matrix.
  assert (square_of is_int MATRIX_SIZE matrix) as Hsq
    by (apply (bool_decide_unpack _); vm_compute; exact I).
  split; [exact Hsq|].
  rewrite (calculate_trace_sums_diagonal matrix Hsq). reflexivity.
Defined.

(** C10.  calculate_trace reads matrix[i][i] for exactly the indices
    i = 0, ..., 49 given by the constant MATRIX_SIZE, whatever the
    dimensions of its argument.  All these reads are in range exactly when
    the matrix has at least 50 rows and row i, for each i < 50, has at
    least i + 1 columns; a rectangular matrix with fewer than 50 rows or
    fewer than 50 columns makes some read fall out of range. *)
Theorem calculate_trace_reads_fixed_range (matrix : Matrix) :
  calculate_trace matrix =
    (xs ← mapM (λ i, cell matrix i i) (seqZ 0 50); Some (wrap 64 (sumZ xs))) ∧
  (is_Some (calculate_trace matrix) ↔
     (50 ≤ length matrix)%nat ∧
     ∀ (i : nat) row, (i < 50)%nat → matrix !! i = Some row →
                      (i + 1 ≤ length row)%nat) ∧
  (∀ rows cols : nat,
     length matrix = rows → Forall (λ row, length row = cols) matrix →
     (rows < 50 ∨ cols < 50)%nat → calculate_trace matrix = None).
Proof.
  assert (is_Some (calculate_trace matrix) ↔
     (50 ≤ length matrix)%nat ∧
     ∀ (i : nat) row, (i < 50)%nat → matrix !! i = Some row →
                      (i + 1 ≤ length row)%nat) as Hiff.
  { unfold calculate_trace. rewrite calculate_trace_is_Some, diagonal_in_range.
    unfold MATRIX_SIZE. split; intros [Hlen Hrows].
    - split; [lia|]. intros i row Hi Hr. apply (Hrows i row); [lia|done].
    - split; [lia|]. intros i row Hi Hr. apply (Hrows i row); [lia|done]. }
  split; [apply calculate_trace_reads|]. split; [exact Hiff|].
  intros rows cols Hrows Hcols Hsmall. apply eq_None_not_Some.
  rewrite Hiff. intros [Hlen Hrow].
  destruct (lookup_lt_is_Some_2 matrix 49) as [row Hr]; [lia|].
  specialize (Hrow 49%nat row ltac:(lia) Hr). rewrite Forall_lookup in Hcols.
  specialize (Hcols _ _ Hr). simpl in Hcols. lia.
Qed.

Lemma calculate_trace_reads_fixed_range_witness :
  calculate_trace [[1; 2]; [3; 4]] = None ∧
  calculate_trace ((λ i, replicate (S i) 1) <$> seq 0 50) = Some 50.
Proof.
  split.
  - apply (proj2 (proj2 (calculate_trace_reads_fixed_range [[1; 2]; [3; 4]])) 2%nat 2%nat).
    + reflexivity.
    + repeat constructor.
    + lia.
  - rewrite (proj1 (calculate_trace_reads_fixed_range _)). reflexivity.
Defined.

(** ** The partitioning scheme *)

Lemma int_div_exact M N :
  0 ≤ M ≤ INT_MAX → 1 ≤ N → int_div M N = Some (M / N).
Proof.
  intros HM HN. unfold int_div. case_decide; [lia|]. f_equal.
  rewrite Z.quot_div_nonneg by lia. apply int_small.
  assert (0 ≤ M / N) by (apply Z.div_pos; lia).
  assert (M / N ≤ M) by (apply Z.div_le_upper_bound; nia).
  unfold is_int, INT_MIN, INT_MAX in *. lia.
Qed.

Lemma thread_range_exact M N i :
  0 ≤ M ≤ INT_MAX → 1 ≤ N ≤ INT_MAX → 0 ≤ i < N →
  Param.thread_range M N (M / N) i = range_spec M N i.
Proof.
  intros HM HN Hi. unfold Param.thread_range, range_spec, int_mul, int_add, int_sub.
  assert (0 ≤ M / N) as Hper by (apply Z.div_pos; lia).
  pose proof (Z.mul_div_le M N ltac:(lia)) as Hle.
  unfold INT_MAX in *.
  assert (is_int (N - 1)) as H1 by (unfold is_int, INT_MIN, INT_MAX; lia).
  assert (is_int (i * (M / N))) as H2 by (unfold is_int, INT_MIN, INT_MAX; nia).
  rewrite (int_small _ H1), (int_small _ H2).
  case_decide as Hlast; [by subst i|].
  assert (is_int (i * (M / N) + M / N)) as H3
    by (unfold is_int, INT_MIN, INT_MAX; nia).
  rewrite (int_small _ H3). f_equal. lia.
Qed.

Lemma launch_step_eq M N per i threads :
  Param.launch_step M N per i threads =
  Some (threads ++
        [Param.Thread (Param.thread_range M N per i).1
                      (Param.thread_range M N per i).2 i]).
Proof.
  unfold Param.launch_step. by destruct (Param.thread_range M N per i).
Qed.

Lemma launch_loop M N per (n : nat) i threads :
  for_loop n i (Param.launch_step M N per) threads =
  Some (threads ++
        ((λ i, Param.Thread (Param.thread_range M N per i).1
                            (Param.thread_range M N per i).2 i)
           <$> seqZ i (Z.of_nat n))).
Proof.
  revert i threads. induction n as [|n IH]; intros i threads.
  - simpl. by rewrite app_nil_r.
  - rewrite seqZ_of_nat_S, fmap_cons. cbn [for_loop].
    rewrite launch_step_eq. cbn [mbind option_bind].
    by rewrite IH, <- app_assoc.
Qed.

Lemma launch_exact M N :
  0 ≤ M ≤ INT_MAX → 1 ≤ N ≤ INT_MAX →
  Param.launch M N =
  Some ((λ i, Param.Thread (range_spec M N i).1 (range_spec M N i).2 i)
          <$> seqZ 0 N).
Proof.
  intros HM HN. unfold Param.launch. rewrite int_div_exact by lia. simpl.
  unfold for_range. rewrite launch_loop. simpl. f_equal.
  rewrite Z.sub_0_r, Z2Nat.id by lia.
  apply Forall_fmap_ext_1, Forall_seqZ. intros i Hi.
  by rewrite <- thread_range_exact by lia.
Qed.

Lemma partitions_exact M N :
  0 ≤ M ≤ INT_MAX → 1 ≤ N ≤ INT_MAX →
  partitions M N = range_spec M N <$> seqZ 0 N.
Proof.
  intros HM HN. unfold partitions. rewrite launch_exact by done. simpl.
  rewrite <- list_fmap_compose. apply Forall_fmap_ext_1, Forall_true.
  intros i. simpl. by destruct (range_spec M N i).
Qed.

Lemma partitions_lookup M N (k : nat) r :
  0 ≤ M ≤ INT_MAX → 1 ≤ N ≤ INT_MAX →
  partitions M N !! k = Some r ↔
  Z.of_nat k < N ∧ r = range_spec M N (Z.of_nat k).
Proof.
  intros HM HN. rewrite partitions_exact, list_lookup_fmap by done.
  destruct (decide (Z.of_nat k < N)).
  - rewrite lookup_seqZ_lt by done. simpl. rewrite Z.add_0_l. split.
    + by intros [= <-].
    + by intros [_ ->].
  - rewrite lookup_seqZ_ge by lia. simpl. split; [done|]. by intros [? _].
Qed.

Lemma length_partitions M N :
  0 ≤ M ≤ INT_MAX → 1 ≤ N ≤ INT_MAX →
  Z.of_nat (length (partitions M N)) = N.
Proof.
  intros. rewrite partitions_exact, length_fmap, length_seqZ by done. lia.
Qed.

Lemma seqZ_split a b c :
  a ≤ b ≤ c → seqZ a (b - a) ++ seqZ b (c - b) = seqZ a (c - a).
Proof.
  intros H. replace (c - a) with ((b - a) + (c - b)) by lia.
  rewrite seqZ_app by lia. do 2 f_equal. lia.
Qed.

(** Below the last worker the ranges tile [0, n * (M / N)). *)
Lemma regular_ranges_tile M N (n : nat) :
  0 ≤ M / N → Z.of_nat n ≤ N - 1 →
  concat (indices <$> (range_spec M N <$> seqZ 0 (Z.of_nat n))) =
  seqZ 0 (Z.of_nat n * (M / N)).
Proof.
  intros Hper. induction n as [|n IH]; intros Hn; [done|].
  rewrite seqZ_S, !fmap_app, concat_app, IH by lia. simpl.
  rewrite app_nil_r. unfold range_spec. case_decide; [lia|].
  unfold indices. simpl.
  replace (seqZ 0 (Z.of_nat (S n) * (M / N)))
    with (seqZ 0 (Z.of_nat (S n) * (M / N) - 0)) by (f_equal; lia).
  rewrite <- (seqZ_split 0 (Z.of_nat n * (M / N)) _) by nia.
  f_equal; f_equal; lia.
Qed.

Lemma partitions_tile M N :
  0 ≤ M ≤ INT_MAX → 1 ≤ N ≤ INT_MAX →
  concat (indices <$> partitions M N) = seqZ 0 M.
Proof.
  intros HM HN. rewrite partitions_exact by done.
  assert (0 ≤ M / N) as Hper by (apply Z.div_pos; lia).
  pose proof (Z.mul_div_le M N ltac:(lia)) as Hle.
  replace N with (Z.of_nat (S (Z.to_nat (N - 1)))) at 2 by lia.
  rewrite seqZ_S, !fmap_app, concat_app, regular_ranges_tile by lia.
  simpl. rewrite app_nil_r. unfold range_spec.
  case_decide; [|lia]. unfold indices. simpl.
  rewrite Z2Nat.id by lia.
  replace (seqZ 0 M) with (seqZ 0 (M - 0)) by (f_equal; lia).
  rewrite <- (seqZ_split 0 ((N - 1) * (M / N)) _) by nia.
  f_equal; f_equal; lia.
Qed.

(** Ranges of distinct workers lie one after the other. *)
Lemma range_spec_ordered M N k1 k2 :
  0 ≤ M → 1 ≤ N → 0 ≤ k1 < k2 → k2 < N →
  (range_spec M N k1).2 ≤ (range_spec M N k2).1.
Proof.
  intros HM HN Hk1 Hk2. unfold range_spec.
  assert (0 ≤ M / N) as Hper by (apply Z.div_pos; lia).
  repeat case_decide; simpl; nia.
Qed.

Lemma range_spec_bounds M N k :
  0 ≤ M → 1 ≤ N → 0 ≤ k < N →
  0 ≤ (range_spec M N k).1 ≤ (range_spec M N k).2 ∧ (range_spec M N k).2 ≤ M.
Proof.
  intros HM HN Hk. unfold range_spec.
  assert (0 ≤ M / N) as Hper by (apply Z.div_pos; lia).
  pose proof (Z.mul_div_le M N ltac:(lia)) as Hle.
  case_decide; simpl; nia.
Qed.

Lemma range_spec_next M N k :
  0 ≤ k → k + 1 < N → (range_spec M N k).2 = (range_spec M N (k + 1)).1.
Proof.
  intros Hk Hk'. unfold range_spec. repeat case_decide; simpl; lia.
Qed.

(** C2.  For 1 <= N <= M the N ranges handed to the workers are the
    ranges [k*(M/N), (k+1)*(M/N)) for k < N-1 and [(N-1)*(M/N), M) for the
    last worker; they are contiguous, pairwise disjoint, and their union
    is exactly [0, M): listed in launch order their indices are
    0, 1, ..., M-1, each once.  M is an int in the program. *)
Theorem partitions_cover_exactly_once (M N : Z) :
  1 ≤ M → 1 ≤ N ≤ M → M ≤ INT_MAX →
  partitions M N = range_spec M N <$> seqZ 0 N ∧
  concat (indices <$> partitions M N) = seqZ 0 M ∧
  (∀ (k : nat) r r',
     partitions M N !! k = Some r → partitions M N !! S k = Some r' →
     r.2 = r'.1) ∧
  (∀ (k1 k2 : nat) r1 r2 j,
     k1 ≠ k2 →
     partitions M N !! k1 = Some r1 → partitions M N !! k2 = Some r2 →
     ¬ (in_range r1 j ∧ in_range r2 j)) ∧
  (∀ j, (∃ (k : nat) r, partitions M N !! k = Some r ∧ in_range r j) ↔
        0 ≤ j < M).
Proof.
  intros HM HN HM'.
  assert (0 ≤ M ≤ INT_MAX) as HM0 by lia.
  assert (1 ≤ N ≤ INT_MAX) as HN0 by lia.
  split; [by apply partitions_exact|].
  split; [by apply partitions_tile|].
  split; [|split].
  - intros k r r' Hr Hr'.
    apply partitions_lookup in Hr as [Hk ->]; [|done..].
    apply partitions_lookup in Hr' as [Hk' ->]; [|done..].
    rewrite Nat2Z.inj_succ. unfold Z.succ. apply range_spec_next; lia.
  - intros k1 k2 r1 r2 j Hne Hr1 Hr2 [[Hlo1 Hhi1] [Hlo2 Hhi2]].
    apply partitions_lookup in Hr1 as [Hk1 ->]; [|done..].
    apply partitions_lookup in Hr2 as [Hk2 ->]; [|done..].
    destruct (decide (k1 < k2)%nat).
    + pose proof (range_spec_ordered M N (Z.of_nat k1) (Z.of_nat k2)). lia.
    + pose proof (range_spec_ordered M N (Z.of_nat k2) (Z.of_nat k1)). lia.
  - intros j. split.
    + intros (k & r & Hr & [Hlo Hhi]).
      apply partitions_lookup in Hr as [Hk ->]; [|done..].
      pose proof (range_spec_bounds M N (Z.of_nat k)). lia.
    + intros Hj.
      assert (j ∈ concat (indices <$> partitions M N)) as Hin.
      { rewrite partitions_tile by done. apply elem_of_seqZ. lia. }
      apply list_elem_of_In, in_concat in Hin as (l & Hl & Hjl).
      apply list_elem_of_In, list_elem_of_fmap in Hl as (r & -> & Hr).
      apply list_elem_of_lookup in Hr as [k Hk].
      exists k, r. split; [done|].
      apply list_elem_of_In, elem_of_seqZ in Hjl. unfold in_range. lia.
Qed.

Lemma partitions_cover_exactly_once_witness :
  partitions 10 3 = [(0, 3); (3, 6); (6, 10)] ∧
  concat (indices <$> partitions 10 3) = [0; 1; 2; 3; 4; 5; 6; 7; 8; 9].
Proof.
  assert (1 ≤ 10) as H1 by lia.
  assert (1 ≤ 3 ≤ 10) as H2 by lia.
  assert (10 ≤ INT_MAX) as H3 by (unfold INT_MAX; lia).
  destruct (partitions_cover_exactly_once 10 3 H1 H2 H3) as (Hp & Hc & _).
  split.
  - rewrite Hp. reflexivity.
  - rewrite Hc. reflexivity.
Defined.

(** C4.  For 1 <= N <= M the last worker's range has M - (N-1)*(M/N)
    elements; every other worker's range has M/N elements; the last range
    is at least as large and larger by at most N-1 elements. *)
Theorem last_partition_absorbs_remainder (M N : Z) :
  1 ≤ M → 1 ≤ N ≤ M → M ≤ INT_MAX →
  ∃ last,
    partitions M N !! Z.to_nat (N - 1) = Some last ∧
    range_size last = M - (N - 1) * (M / N) ∧
    M / N ≤ range_size last ≤ M / N + (N - 1) ∧
    ∀ (k : nat) r,
      (k < Z.to_nat (N - 1))%nat → partitions M N !! k = Some r →
      range_size r = M / N ∧
      range_size r ≤ range_size last ≤ range_size r + (N - 1).
Proof.
  intros HM HN HM'.
  assert (0 ≤ M ≤ INT_MAX) as HM0 by lia.
  assert (1 ≤ N ≤ INT_MAX) as HN0 by lia.
  pose proof (Z.mul_div_le M N ltac:(lia)) as Hle.
  pose proof (Z.mul_succ_div_gt M N ltac:(lia)) as Hgt.
  assert (range_size (range_spec M N (N - 1)) = M - (N - 1) * (M / N)) as Hlast.
  { unfold range_size, range_spec. by case_decide. }
  exists (range_spec M N (N - 1)). split; [|split; [|split]].
  - apply partitions_lookup; [done..|]. rewrite Z2Nat.id by lia.
    split; [lia|done].
  - done.
  - rewrite Hlast. lia.
  - intros k r Hk Hr. apply partitions_lookup in Hr as [_ ->]; [|done..].
    rewrite Hlast. unfold range_size, range_spec.
    case_decide; [lia|]. simpl. lia.
Qed.

Lemma last_partition_absorbs_remainder_witness :
  ∃ last, partitions 10 4 !! 3%nat = Some last ∧ range_size last = 4.
Proof.
  assert (1 ≤ 10) as H1 by lia.
  assert (1 ≤ 4 ≤ 10) as H2 by lia.
  assert (10 ≤ INT_MAX) as H3 by (unfold INT_MAX; lia).
  destruct (last_partition_absorbs_remainder 10 4 H1 H2 H3)
    as (last & Hl & Hs & _).
  exists last. split; [exact Hl | exact Hs].
Defined.

(** C6.  For M = 10 and N = 4 the program computes per_worker = 2 and
    launches four threads with the ranges [0,2), [2,4), [4,6), [6,10). *)
Theorem partitions_10_4 :
  int_div 10 4 = Some 2 ∧
  Param.launch 10 4 =
    Some [Param.Thread 0 2 0; Param.Thread 2 4 1;
          Param.Thread 4 6 2; Param.Thread 6 10 3] ∧
  partitions 10 4 = [(0, 2); (2, 4); (4, 6); (6, 10)].
Proof. repeat split; reflexivity. Qed.

(** ** Workers *)

Lemma worker_step_eq size matrices i a :
  Param.worker_step size matrices i a =
  t ← matrix_trace size matrices i; Some (ll_add a t).
Proof.
  unfold Param.worker_step, matrix_trace. by destruct (vec_at matrices i).
Qed.

Lemma trace_worker_sum size matrices s e :
  Param.trace_worker size matrices s e =
  (λ ts, wrap 64 (sumZ ts)) <$> mapM (matrix_trace size matrices) (indices (s, e)).
Proof.
  unfold Param.trace_worker, indices.
  rewrite (for_range_accumulate _ _ _ (matrix_trace size matrices))
    by apply worker_step_eq.
  simpl. destruct (mapM _ _); simpl; [|done].
  f_equal. apply (foldl_ll_add 0).
Qed.

(** ** Joining the threads *)

Lemma vec_set_middle {A} (l1 l2 : list A) x y :
  vec_set (l1 ++ x :: l2) (Z.of_nat (length l1)) y = Some (l1 ++ y :: l2).
Proof.
  unfold vec_set. rewrite length_app, length_cons.
  case_decide; [|lia]. f_equal. rewrite Nat2Z.id.
  rewrite insert_app_r_alt by lia. by rewrite Nat.sub_diag.
Qed.

Lemma join_all_slots size matrices (s e : Z → Z) (n : nat) :
  ∀ slots rest : list Z,
  length rest = n →
  Param.join_all size matrices
    ((λ i, Param.Thread (s i) (e i) i)
       <$> seqZ (Z.of_nat (length slots)) (Z.of_nat n))
    (slots ++ rest) =
  (λ rs, slots ++ rs)
    <$> mapM (λ i, Param.trace_worker size matrices (s i) (e i))
          (seqZ (Z.of_nat (length slots)) (Z.of_nat n)).
Proof.
  induction n as [|n IH]; intros slots rest Hlen.
  - destruct rest; [|done]. done.
  - destruct rest as [|r0 rest]; [done|].
    rewrite seqZ_of_nat_S, fmap_cons. cbn [Param.join_all mapM].
    unfold Param.run_thread. cbn [Param.t_start Param.t_end Param.t_slot].
    destruct (Param.trace_worker size matrices _ _) as [r|];
      cbn [mbind option_bind]; [|done].
    rewrite vec_set_middle. cbn [mbind option_bind].
    specialize (IH (slots ++ [r]) rest).
    rewrite length_app, Nat2Z.inj_add in IH.
    change (Z.of_nat (length [r])) with 1 in IH.
    rewrite <- app_assoc in IH. cbn [app] in IH.
    rewrite IH by (simpl in Hlen; lia).
    destruct (mapM _ _); simpl; [|done].
    by rewrite <- app_assoc.
Qed.

(** Two threads with distinct slots can complete in either order. *)
Lemma run_thread_commute size matrices t1 t2 partial_results :
  Param.t_slot t1 ≠ Param.t_slot t2 →
  (pr ← Param.run_thread size matrices t1 partial_results;
   Param.run_thread size matrices t2 pr) =
  (pr ← Param.run_thread size matrices t2 partial_results;
   Param.run_thread size matrices t1 pr).
Proof.
  intros Hne. unfold Param.run_thread.
  destruct (Param.trace_worker size matrices (Param.t_start t1) (Param.t_end t1))
    as [r1|], (Param.trace_worker size matrices (Param.t_start t2) (Param.t_end t2))
    as [r2|]; cbn [mbind option_bind]; unfold vec_set;
    repeat (case_decide; cbn [mbind option_bind]);
    rewrite ?length_insert in *; try done; try lia.
  f_equal. apply list_insert_insert_ne. lia.
Qed.

(** The order in which the threads of a trial complete does not matter:
    their slots are distinct, so every order leaves the same values in
    [partial_results] as the launch order. *)
Lemma join_all_permutation size matrices threads threads' :
  threads ≡ₚ threads' → NoDup (Param.t_slot <$> threads) →
  ∀ partial_results,
  Param.join_all size matrices threads partial_results =
  Param.join_all size matrices threads' partial_results.
Proof.
  induction 1 as [|t ts ts' Hperm IH|t1 t2 ts|ts1 ts2 ts3 H12 IH12 H23 IH23];
    intros Hnd pr.
  - done.
  - rewrite fmap_cons in Hnd. apply NoDup_cons in Hnd as [_ Hnd].
    cbn [Param.join_all]. destruct (Param.run_thread _ _ _ _); simpl; [|done].
    by apply IH.
  - rewrite !fmap_cons in Hnd.
    apply NoDup_cons in Hnd as [Hnotin _].
    assert (Param.t_slot t2 ≠ Param.t_slot t1) as Hne.
    { intros Heq. apply Hnotin. rewrite Heq. by left. }
    cbn [Param.join_all].
    pose proof (run_thread_commute size matrices t2 t1 pr Hne) as Hc.
    destruct (Param.run_thread size matrices t2 pr) as [pr2|],
             (Param.run_thread size matrices t1 pr) as [pr1|];
      cbn [mbind option_bind] in *; try done.
    + by rewrite Hc.
    + by rewrite Hc.
    + by rewrite <- Hc.
  - rewrite IH12 by done. apply IH23. by rewrite <- H12.
Qed.

Lemma launch_slots_distinct M N threads :
  0 ≤ M ≤ INT_MAX → 1 ≤ N ≤ INT_MAX →
  Param.launch M N = Some threads → NoDup (Param.t_slot <$> threads).
Proof.
  intros HM HN. rewrite launch_exact by done. intros [= <-].
  rewrite <- list_fmap_compose.
  rewrite (list_fmap_ext _ id) by done.
  rewrite list_fmap_id. apply NoDup_seqZ.
Qed.

Lemma mapM_fmap_pre {A B C} (f : B → option C) (g : A → B) l :
  mapM f (g <$> l) = mapM (f ∘ g) l.
Proof.
  induction l as [|x l IH]; [done|].
  rewrite fmap_cons. cbn [mapM]. by rewrite IH.
Qed.

Lemma mapM_fmap_post {A B C} (f : A → option B) (g : B → C) l :
  mapM (λ x, g <$> f x) l = fmap g <$> mapM f l.
Proof.
  induction l as [|x l IH]; [done|].
  cbn [mapM]. rewrite IH.
  destruct (f x); simpl; [|done]. by destruct (mapM f l).
Qed.

Lemma mapM_app {A B} (f : A → option B) l1 l2 :
  mapM f (l1 ++ l2) = ys1 ← mapM f l1; ys2 ← mapM f l2; Some (ys1 ++ ys2).
Proof.
  induction l1 as [|x l1 IH]; simpl.
  - by destruct (mapM f l2).
  - rewrite IH. destruct (f x); simpl; [|done].
    destruct (mapM f l1); simpl; [|done]. by destruct (mapM f l2).
Qed.

Lemma mapM_concat {A B} (f : A → option B) ls :
  mapM f (concat ls) = @concat B <$> mapM (mapM f) ls.
Proof.
  induction ls as [|l ls IH]; [done|].
  simpl. rewrite mapM_app, IH.
  destruct (mapM f l); simpl; [|done]. by destruct (mapM (mapM f) ls).
Qed.

Lemma sumZ_concat ls : sumZ (concat ls) = sumZ (sumZ <$> ls).
Proof.
  induction ls as [|l ls IH]; [done|].
  simpl. rewrite sumZ_app, IH. done.
Qed.

(** ** A trial *)

Lemma trial_slots_exact M size matrices N :
  0 ≤ M ≤ INT_MAX → 1 ≤ N ≤ INT_MAX →
  Param.trial_slots M size matrices N =
  mapM (λ r, Param.trace_worker size matrices r.1 r.2) (partitions M N).
Proof.
  intros HM HN. unfold Param.trial_slots, vec_make.
  case_decide; [|lia]. cbn [mbind option_bind].
  rewrite launch_exact by done. cbn [mbind option_bind].
  pose proof (join_all_slots size matrices
                (λ i, (range_spec M N i).1) (λ i, (range_spec M N i).2)
                (Z.to_nat N) [] (replicate (Z.to_nat N) 0)) as Hjoin.
  rewrite length_replicate in Hjoin. specialize (Hjoin eq_refl).
  cbn [length app] in Hjoin. rewrite Z2Nat.id in Hjoin by lia.
  change (Z.of_nat 0) with 0 in Hjoin. rewrite Hjoin.
  rewrite partitions_exact, mapM_fmap_pre by done.
  by destruct (mapM _ _).
Qed.

(** X8.  The threads of a trial write distinct slots, so the order in
    which they run to completion is immaterial: joining the launched
    threads in any order leaves in partial_results what the launch order
    leaves there (and has no result in the same cases). *)
Lemma trial_slots_schedule M size matrices N threads threads' :
  0 ≤ M ≤ INT_MAX → 1 ≤ N ≤ INT_MAX →
  Param.launch M N = Some threads → threads ≡ₚ threads' →
  Param.join_all size matrices threads' (replicate (Z.to_nat N) 0) =
  Param.trial_slots M size matrices N.
Proof.
  intros HM HN Hlaunch Hperm. unfold Param.trial_slots, vec_make.
  case_decide; [|lia]. rewrite Hlaunch. cbn [mbind option_bind].
  symmetry. apply join_all_permutation; [done|].
  by eapply launch_slots_distinct.
Qed.

Lemma trial_slots_schedule_witness :
  let matrices := [ [[1]]; [[2]]; [[3]]; [[4]] ] in
  Param.join_all 1 matrices [Param.Thread 2 4 1; Param.Thread 0 2 0] [0; 0] =
  Some [3; 7].
Proof.
  intros matrices.
  assert (0 ≤ 4 ≤ INT_MAX) as HM by (unfold INT_MAX; lia).
  assert (1 ≤ 2 ≤ INT_MAX) as HN by (unfold INT_MAX; lia).
  assert (Param.launch 4 2 = Some [Param.Thread 0 2 0; Param.Thread 2 4 1])
    as Hlaunch by reflexivity.
  assert ([Param.Thread 0 2 0; Param.Thread 2 4 1]
          ≡ₚ [Param.Thread 2 4 1; Param.Thread 0 2 0]) as Hperm
    by apply perm_swap.
  etrans; [exact (trial_slots_schedule 4 1 matrices 2 _ _ HM HN Hlaunch Hperm)|].
  reflexivity.
Defined.

(** Whatever the number of threads, a trial computes what one pass of the
    worker loop over the whole collection computes. *)
Lemma trial_sequential M size matrices N :
  0 ≤ M ≤ INT_MAX → 1 ≤ N ≤ INT_MAX →
  Param.trial M size matrices N = Param.trace_worker size matrices 0 M.
Proof.
  intros HM HN. unfold Param.trial. rewrite trial_slots_exact by done.
  rewrite (mapM_ext _
             ((λ l, (λ ts, wrap 64 (sumZ ts))
                      <$> mapM (matrix_trace size matrices) l) ∘ indices)).
  2:{ intros [s e]. apply trace_worker_sum. }
  rewrite <- mapM_fmap_pre, mapM_fmap_post.
  rewrite trace_worker_sum.
  replace (indices (0, M)) with (seqZ 0 M)
    by (unfold indices; simpl; f_equal; lia).
  rewrite <- (partitions_tile M N), mapM_concat by done.
  destruct (mapM (mapM _) _) as [tss|]; simpl; [|done].
  f_equal. rewrite aggregate_sum, sumZ_concat.
  rewrite (list_fmap_compose sumZ (wrap 64)). apply wrap_sumZ_wrap.
Qed.

Lemma mapM_matrix_trace size matrices :
  Forall (λ matrix, is_Some (Param.calculate_trace size matrix)) matrices →
  mapM (matrix_trace size matrices) (seqZ 0 (Z.of_nat (length matrices))) =
  Some (traces size matrices).
Proof.
  intros Hall. apply mapM_Some_2, Forall2_same_length_lookup_2.
  - unfold traces. rewrite length_seqZ, length_fmap. lia.
  - intros i x t Hx Ht. apply lookup_seqZ in Hx as [-> Hi].
    unfold traces in Ht. rewrite list_lookup_fmap in Ht.
    destruct (matrices !! i) as [matrix|] eqn:Hm; [|done].
    injection Ht as <-. rewrite Forall_lookup in Hall.
    destruct (Hall _ _ Hm) as [t Hc].
    unfold matrix_trace. rewrite Z.add_0_l, vec_at_nat, Hm. simpl.
    by rewrite Hc.
Qed.

Lemma sequential_total size matrices :
  Forall (λ matrix, is_Some (Param.calculate_trace size matrix)) matrices →
  Param.trace_worker size matrices 0 (Z.of_nat (length matrices)) =
  Some (wrap 64 (sumZ (traces size matrices))).
Proof.
  intros Hall. rewrite trace_worker_sum.
  replace (indices (0, Z.of_nat (length matrices)))
    with (seqZ 0 (Z.of_nat (length matrices)))
    by (unfold indices; simpl; f_equal; lia).
  by rewrite mapM_matrix_trace.
Qed.

(** C1.  For a collection of M matrices and N workers, 1 <= N <= M, the
    slots hold the workers' sums over the N contiguous ranges, and the
    total obtained by summing the slots equals the total of the 1-worker
    trial, which is the sequential sum of calculate_trace over all M
    matrices.  M is an int in the program. *)
Theorem parallel_total_equals_sequential
    (size M N : Z) (matrices : list Matrix) :
  Z.of_nat (length matrices) = M → M ≤ INT_MAX → 1 ≤ N ≤ M →
  Param.trial_slots M size matrices N =
    mapM (λ r, Param.trace_worker size matrices r.1 r.2) (partitions M N) ∧
  Param.trial M size matrices N = Param.trial M size matrices 1 ∧
  Param.trial M size matrices 1 = Param.trace_worker size matrices 0 M ∧
  (Forall (λ matrix, is_Some (Param.calculate_trace size matrix)) matrices →
   Param.trial M size matrices N =
     Some (wrap 64 (sumZ (traces size matrices)))).
Proof.
  intros Hlen HM HN.
  assert (0 ≤ M ≤ INT_MAX) as HM0 by lia.
  assert (1 ≤ N ≤ INT_MAX) as HN0 by lia.
  assert (1 ≤ 1 ≤ INT_MAX) as H1 by (unfold INT_MAX; lia).
  split; [by apply trial_slots_exact|].
  split; [by rewrite !trial_sequential|].
  split; [by apply trial_sequential|].
  intros Hall. rewrite trial_sequential by done. subst M.
  by apply sequential_total.
Qed.

Lemma parallel_total_equals_sequential_witness :
  let matrices := [ [[1; 2]; [3; 4]]; [[5; 6]; [7; 8]]; [[-9; 0]; [0; 2]] ] in
  Param.trial_slots 3 2 matrices 2 = Some [5; 6] ∧
  Param.trial 3 2 matrices 2 = Param.trial 3 2 matrices 1 ∧
  Param.trial 3 2 matrices 2 = Some 11.
Proof.
  intros matrices.
  assert (Z.of_nat (length matrices) = 3) as H1 by reflexivity.
  assert (3 ≤ INT_MAX) as H2 by (unfold INT_MAX; lia).
  assert (1 ≤ 2 ≤ 3) as H3 by lia.
  destruct (parallel_total_equals_sequential 2 3 2 matrices H1 H2 H3)
    as (Hs & He & _ & Ht).
  split; [rewrite Hs; reflexivity|]. split; [exact He|].
  rewrite Ht; [reflexivity|]. repeat constructor; by eexists.
Defined.

(** ** More workers than matrices *)

Lemma mapM_replicate {A B} (f : A → option B) x y (n : nat) :
  f x = Some y → mapM f (replicate n x) = Some (replicate n y).
Proof.
  intros Hf. induction n as [|n IH]; [done|].
  simpl. by rewrite Hf, IH.
Qed.

Lemma partitions_degenerate M N :
  0 ≤ M → M < N → N ≤ INT_MAX →
  partitions M N = replicate (Z.to_nat (N - 1)) (0, 0) ++ [(0, M)].
Proof.
  intros HM HN HN'. rewrite partitions_exact by (unfold INT_MAX in *; lia).
  assert (M / N = 0) as Hper by (apply Z.div_small; lia).
  replace N with (Z.of_nat (S (Z.to_nat (N - 1)))) at 2 by lia.
  rewrite seqZ_S, fmap_app, Z2Nat.id by lia. f_equal.
  - transitivity ((λ _ : Z, (0, 0)) <$> seqZ 0 (N - 1)).
    + apply Forall_fmap_ext_1, Forall_seqZ. intros k Hk.
      unfold range_spec. case_decide; [lia|].
      rewrite Hper. f_equal; lia.
    + rewrite (const_fmap (λ _ : Z, (0, 0)) _ (0, 0)) by done.
      by rewrite length_seqZ.
  - simpl. unfold range_spec. case_decide; [|lia].
    rewrite Hper. do 2 f_equal. lia.
Qed.

(** C9.  When the worker count N exceeds the collection size M, the
    program computes per_worker = 0, every worker but the last receives
    the empty range [0, 0) and stores 0, and the last worker receives
    [0, M); the total is still the sequential sum of calculate_trace over
    all M matrices. *)
Theorem more_workers_than_matrices
    (size M N : Z) (matrices : list Matrix) :
  Z.of_nat (length matrices) = M → M < N → N ≤ INT_MAX →
  int_div M N = Some 0 ∧
  partitions M N = replicate (Z.to_nat (N - 1)) (0, 0) ++ [(0, M)] ∧
  Param.trace_worker size matrices 0 0 = Some 0 ∧
  Param.trial_slots M size matrices N =
    (λ last, replicate (Z.to_nat (N - 1)) 0 ++ [last])
      <$> Param.trace_worker size matrices 0 M ∧
  Param.trial M size matrices N = Param.trace_worker size matrices 0 M ∧
  (Forall (λ matrix, is_Some (Param.calculate_trace size matrix)) matrices →
   Param.trial M size matrices N =
     Some (wrap 64 (sumZ (traces size matrices)))).
Proof.
  intros Hlen HN HN'.
  assert (0 ≤ M ≤ INT_MAX) as HM0 by lia.
  assert (1 ≤ N ≤ INT_MAX) as HN0 by lia.
  split; [|split; [|split; [|split; [|split]]]].
  - rewrite int_div_exact by lia. f_equal. apply Z.div_small. lia.
  - apply partitions_degenerate; lia.
  - done.
  - rewrite trial_slots_exact, partitions_degenerate by lia.
    rewrite mapM_app.
    rewrite (mapM_replicate _ (0, 0) 0) by done. simpl.
    by destruct (Param.trace_worker size matrices 0 M).
  - by apply trial_sequential.
  - intros Hall. rewrite trial_sequential by done. subst M.
    by apply sequential_total.
Qed.

Lemma more_workers_than_matrices_witness :
  let matrices := [ [[1; 2]; [3; 4]]; [[5; 6]; [7; 8]] ] in
  partitions 2 4 = [(0, 0); (0, 0); (0, 0); (0, 2)] ∧
  Param.trial_slots 2 2 matrices 4 = Some [0; 0; 0; 18] ∧
  Param.trial 2 2 matrices 4 = Some 18.
Proof.
  intros matrices.
  assert (Z.of_nat (length matrices) = 2) as H1 by reflexivity.
  assert (2 < 4) as H2 by lia.
  assert (4 ≤ INT_MAX) as H3 by (unfold INT_MAX; lia).
  destruct (more_workers_than_matrices 2 2 4 matrices H1 H2 H3)
    as (_ & Hp & _ & Hs & _ & Ht).
  split; [rewrite Hp; reflexivity|].
  split; [rewrite Hs; reflexivity|].
  rewrite Ht; [reflexivity|]. repeat constructor; by eexists.
Defined.

(** ** The 2 x 2 scenario *)

(** C5.  The scenario with matrices of size S = 2 and a collection of 3
    matrices, that is with MATRIX_SIZE = 2 and NUM_MATRICES = 3:
    calculate_trace returns 5 for [[1,2],[3,4]], and for the collection of
    three such matrices the total is 15 with one worker and 15 with three
    workers, each of which stores 5. *)
Theorem scenario_2x2_at_size_2 :
  let matrix := [[1; 2]; [3; 4]] in
  Param.calculate_trace 2 matrix = Some 5 ∧
  Param.trial 3 2 [matrix; matrix; matrix] 1 = Some 15 ∧
  Param.trial_slots 3 2 [matrix; matrix; matrix] 3 = Some [5; 5; 5] ∧
  Param.trial 3 2 [matrix; matrix; matrix] 3 = Some 15.
Proof. repeat split; reflexivity. Qed.

(** ** Ranges of the accumulators *)

Lemma accumulate_bounded lo hi xs :
  lo ≤ 0 ≤ hi → Forall (in_value_range lo hi) xs →
  ∀ acc,
  LLONG_MIN ≤ acc + Z.of_nat (length xs) * lo →
  acc + Z.of_nat (length xs) * hi ≤ LLONG_MAX →
  accumulates_exactly acc xs ∧ foldl ll_add acc xs = acc + sumZ xs.
Proof.
  intros Hlohi. induction 1 as [|x xs Hx Hxs IH]; intros acc Hlo Hhi.
  - simpl. split; [done|lia].
  - rewrite length_cons, Nat2Z.inj_succ in Hlo, Hhi.
    unfold in_value_range in Hx.
    assert (is_ll (acc + x)) as Hll by (unfold is_ll; nia).
    cbn [accumulates_exactly foldl]. unfold ll_add at 1 3.
    rewrite (ll_small _ Hll).
    destruct (IH (acc + x)) as [Hex Hsum]; [nia|nia|].
    split; [done|]. rewrite Hsum, sumZ_cons. lia.
Qed.

Lemma program_matrix_trace matrix :
  square_of (in_value_range RANDOM_MIN RANDOM_MAX) MATRIX_SIZE matrix →
  accumulates_exactly 0 (diagonal MATRIX_SIZE matrix) ∧
  calculate_trace matrix = Some (trace_spec MATRIX_SIZE matrix) ∧
  in_value_range (-5000) 5000 (trace_spec MATRIX_SIZE matrix).
Proof.
  intros Hsq. destruct (square_diagonal _ _ _ Hsq) as (Hmap & Hdiag & Hlen).
  unfold MATRIX_SIZE, RANDOM_MIN, RANDOM_MAX in *.
  pose proof (sumZ_bounds _ _ _ Hdiag) as Hsum.
  destruct (accumulate_bounded (-100) 100 _ ltac:(lia) Hdiag 0) as [Hex _];
    [unfold LLONG_MIN; lia | unfold LLONG_MAX; lia |].
  split; [done|]. split.
  - unfold calculate_trace, MATRIX_SIZE. rewrite calculate_trace_reads, Hmap.
    simpl. f_equal. apply ll_small.
    unfold trace_spec, is_ll, LLONG_MIN, LLONG_MAX. lia.
  - unfold trace_spec, in_value_range. lia.
Qed.

Lemma program_matrix_trace_at matrices i :
  program_collection matrices → 0 ≤ i < NUM_MATRICES →
  ∃ t, matrix_trace MATRIX_SIZE matrices i = Some t ∧
       in_value_range (-5000) 5000 t.
Proof.
  intros [Hlen Hall] Hi.
  destruct (vec_at_is_Some matrices i) as [_ [matrix Hm]]; [lia|].
  pose proof Hm as Hm'. apply vec_at_Some in Hm' as [_ Hm'].
  rewrite Forall_lookup in Hall.
  destruct (program_matrix_trace matrix (Hall _ _ Hm')) as (_ & Ht & Hb).
  exists (trace_spec MATRIX_SIZE matrix). split; [|done].
  unfold matrix_trace. by rewrite Hm.
Qed.

Lemma program_worker matrices r :
  program_collection matrices →
  0 ≤ r.1 → r.1 ≤ r.2 → r.2 ≤ NUM_MATRICES →
  accumulates_exactly 0 (traces_in MATRIX_SIZE matrices r) ∧
  trace_worker matrices r.1 r.2 = Some (sumZ (traces_in MATRIX_SIZE matrices r)) ∧
  in_value_range (-5000000) 5000000 (sumZ (traces_in MATRIX_SIZE matrices r)).
Proof.
  intros Hcoll Hlo Hle Hhi.
  assert (Forall (in_value_range (-5000) 5000) (traces_in MATRIX_SIZE matrices r))
    as Hts.
  { unfold traces_in, indices. apply Forall_fmap, Forall_seqZ. intros i Hi.
    cbv [compose].
    destruct (program_matrix_trace_at matrices i Hcoll) as (t & -> & Hb);
      [lia|done]. }
  assert (Z.of_nat (length (traces_in MATRIX_SIZE matrices r)) = r.2 - r.1)
    as Hlen.
  { unfold traces_in, indices. rewrite length_fmap, length_seqZ. lia. }
  pose proof (sumZ_bounds _ _ _ Hts) as Hsum.
  unfold NUM_MATRICES in *.
  destruct (accumulate_bounded (-5000) 5000 _ ltac:(lia) Hts 0) as [Hex _];
    [unfold LLONG_MIN; lia | unfold LLONG_MAX; lia |].
  split; [done|]. split.
  - unfold trace_worker. rewrite trace_worker_sum.
    replace (r.1, r.2) with r by (by destruct r).
    rewrite mapM_default.
    + simpl. f_equal. apply ll_small.
      unfold is_ll, LLONG_MIN, LLONG_MAX. fold (traces_in MATRIX_SIZE matrices r).
      lia.
    + unfold indices. apply Forall_seqZ. intros i Hi.
      destruct (program_matrix_trace_at matrices i Hcoll) as (t & -> & _);
        [unfold NUM_MATRICES; lia|done].
  - unfold in_value_range. lia.
Qed.

(** C7.  Under the program's parameters (1000 matrices of 50 x 50
    elements in [-100, 100]) no accumulation overflows: the additions of
    calculate_trace, of every worker and of the aggregation all have their
    exact results within long long; every trace lies in [-5000, 5000],
    every partial sum and the grand total in [-5000000, 5000000], which is
    inside the range of long long. *)
Theorem program_accumulations_fit (matrices : list Matrix) (N : Z) :
  program_collection matrices → 1 ≤ N ≤ INT_MAX →
  Forall (λ matrix,
            accumulates_exactly 0 (diagonal MATRIX_SIZE matrix) ∧
            calculate_trace matrix = Some (trace_spec MATRIX_SIZE matrix) ∧
            in_value_range (-5000) 5000 (trace_spec MATRIX_SIZE matrix))
         matrices ∧
  Forall (λ r,
            accumulates_exactly 0 (traces_in MATRIX_SIZE matrices r) ∧
            trace_worker matrices r.1 r.2 =
              Some (sumZ (traces_in MATRIX_SIZE matrices r)) ∧
            in_value_range (-5000000) 5000000
              (sumZ (traces_in MATRIX_SIZE matrices r)))
         (partitions NUM_MATRICES N) ∧
  (let slots := (λ r, sumZ (traces_in MATRIX_SIZE matrices r))
                  <$> partitions NUM_MATRICES N in
   trial_slots matrices N = Some slots ∧
   accumulates_exactly 0 slots ∧
   trial matrices N = Some (sumZ slots) ∧
   sumZ slots = sumZ (traces MATRIX_SIZE matrices) ∧
   in_value_range (-5000000) 5000000 (sumZ slots)) ∧
  is_ll (-5000000) ∧ is_ll 5000000.
Proof.
  intros Hcoll HN.
  assert (0 ≤ NUM_MATRICES ≤ INT_MAX) as HM by done.
  assert (Forall (λ matrix,
            accumulates_exactly 0 (diagonal MATRIX_SIZE matrix) ∧
            calculate_trace matrix = Some (trace_spec MATRIX_SIZE matrix) ∧
            in_value_range (-5000) 5000 (trace_spec MATRIX_SIZE matrix))
         matrices) as Hmatrices.
  { destruct Hcoll as [_ Hall]. eapply Forall_impl; [exact Hall|].
    intros matrix. apply program_matrix_trace. }
  assert (Forall (λ r,
            accumulates_exactly 0 (traces_in MATRIX_SIZE matrices r) ∧
            trace_worker matrices r.1 r.2 =
              Some (sumZ (traces_in MATRIX_SIZE matrices r)) ∧
            in_value_range (-5000000) 5000000
              (sumZ (traces_in MATRIX_SIZE matrices r)))
         (partitions NUM_MATRICES N)) as Hworkers.
  { apply Forall_lookup. intros k r Hr.
    apply partitions_lookup in Hr as [Hk ->]; [|done..].
    pose proof (range_spec_bounds NUM_MATRICES N (Z.of_nat k)
                  ltac:(lia) ltac:(lia) ltac:(lia)) as (Hb1 & Hb2).
    apply program_worker; [done|lia..]. }
  set (slots := (λ r, sumZ (traces_in MATRIX_SIZE matrices r))
                  <$> partitions NUM_MATRICES N).
  assert (trial_slots matrices N = Some slots) as Hslots.
  { unfold trial_slots. rewrite trial_slots_exact by done.
    apply mapM_Some_2, Forall2_fmap_r, Forall_Forall2_diag.
    eapply Forall_impl; [exact Hworkers|]. by intros r (_ & Hw & _). }
  assert (Forall (in_value_range (-5000000) 5000000) slots) as Hrange.
  { apply Forall_fmap. eapply Forall_impl; [exact Hworkers|].
    by intros r (_ & _ & Hb). }
  assert (Z.of_nat (length slots) = N) as Hlen.
  { unfold slots. rewrite length_fmap. by apply length_partitions. }
  destruct (accumulate_bounded (-5000000) 5000000 slots ltac:(lia) Hrange 0)
    as [Hex Hagg];
    [unfold LLONG_MIN, INT_MAX in *; lia | unfold LLONG_MAX, INT_MAX in *; lia |].
  assert (trial matrices N = Some (sumZ slots)) as Htrial.
  { unfold trial, Param.trial. fold trial_slots. rewrite Hslots. simpl.
    f_equal. exact Hagg. }
  assert (Forall (in_value_range (-5000) 5000) (traces MATRIX_SIZE matrices))
    as Htraces.
  { apply Forall_fmap. eapply Forall_impl; [exact Hmatrices|].
    intros matrix (_ & Ht & Hb). cbv [compose].
    unfold calculate_trace in Ht. by rewrite Ht. }
  pose proof (sumZ_bounds _ _ _ Htraces) as Hsum.
  assert (Z.of_nat (length (traces MATRIX_SIZE matrices)) = 1000) as Hlen'.
  { unfold traces. rewrite length_fmap. by destruct Hcoll. }
  assert (sumZ slots = sumZ (traces MATRIX_SIZE matrices)) as Heq.
  { assert (Some (sumZ slots) =
            Some (wrap 64 (sumZ (traces MATRIX_SIZE matrices)))) as Hsome.
    { rewrite <- Htrial. unfold trial. rewrite trial_sequential by done.
      destruct Hcoll as [<- _]. apply sequential_total.
      eapply Forall_impl; [exact Hmatrices|].
      intros matrix (_ & Ht & _). unfold calculate_trace in Ht. by rewrite Ht. }
    injection Hsome as ->. apply ll_small.
    unfold is_ll, LLONG_MIN, LLONG_MAX. lia. }
  split; [done|]. split; [done|]. split.
  - cbv zeta. fold slots. split; [done|]. split; [done|]. split; [done|].
    split; [done|]. rewrite Heq. unfold in_value_range. lia.
  - by vm_compute.
Qed.

Lemma program_accumulations_fit_witness :
  let matrices := replicate 1000 (replicate 50 (replicate 50 100)) in
  program_collection matrices ∧
  ∃ total, trial matrices 8 = Some total ∧ -5000000 ≤ total ≤ 5000000.
Proof.
  intros matrices.
  assert (program_collection matrices) as Hcoll.
  { split; [reflexivity|].
    apply Forall_replicate. split; [reflexivity|].
    apply Forall_replicate. split; [reflexivity|].
    apply Forall_replicate. unfold in_value_range, RANDOM_MIN, RANDOM_MAX. lia. }
  assert (1 ≤ 8 ≤ INT_MAX) as HN by (unfold INT_MAX; lia).
  split; [exact Hcoll|].
  destruct (program_accumulations_fit matrices 8 Hcoll HN)
    as (_ & _ & (_ & _ & Ht & _ & Hb) & _).
  eexists. split; [exact Ht | exact Hb].
Defined.

(** ** The driver *)

Lemma for_loop_invariant {St} (I : St → Prop) (n : nat) body :
  ∀ i (s : St),
  I s →
  (∀ j s, i ≤ j < i + Z.of_nat n → I s → ∃ s', body j s = Some s' ∧ I s') →
  ∃ s', for_loop n i body s = Some s' ∧ I s'.
Proof.
  induction n as [|n IH]; intros i s Hs Hbody.
  - exists s. done.
  - destruct (Hbody i s) as (s1 & Hs1 & HI1); [lia|done|].
    cbn [for_loop]. rewrite Hs1. cbn [mbind option_bind].
    apply IH; [done|]. intros j s2 Hj. apply Hbody. lia.
Qed.

Lemma for_range_invariant {St} (I : St → Prop) lo hi body (s : St) :
  I s →
  (∀ j s, lo ≤ j < hi → I s → ∃ s', body j s = Some s' ∧ I s') →
  ∃ s', for_range lo hi body s = Some s' ∧ I s'.
Proof.
  intros Hs Hbody. apply for_loop_invariant; [done|].
  intros j s1 Hj. apply Hbody. lia.
Qed.

Lemma vec_set_Some {A} (v : list A) i x :
  0 ≤ i < Z.of_nat (length v) → vec_set v i x = Some (<[Z.to_nat i := x]> v).
Proof. intros Hi. unfold vec_set. by case_decide. Qed.

Lemma fill_cell_shape P count size draws i j k matrices used :
  collection_of P count size matrices →
  0 ≤ i < count → 0 ≤ j < size → 0 ≤ k < size → P (draws used) →
  ∃ st, Param.fill_cell draws i j k (matrices, used) = Some st ∧
        collection_of P count size st.1.
Proof.
  intros [Hlen Hall] Hi Hj Hk HP. unfold Param.fill_cell.
  destruct (vec_at_is_Some matrices i) as [_ [matrix Hm]]; [lia|].
  rewrite Hm. cbn [mbind option_bind].
  apply vec_at_Some in Hm as [_ Hm].
  pose proof (proj1 (Forall_lookup _ _) Hall _ _ Hm) as [Hrows Hsq].
  destruct (vec_at_is_Some matrix j) as [_ [row Hr]]; [lia|].
  rewrite Hr. cbn [mbind option_bind].
  apply vec_at_Some in Hr as [_ Hr].
  pose proof (proj1 (Forall_lookup _ _) Hsq _ _ Hr) as [Hcols HPs].
  do 3 (rewrite vec_set_Some by lia; cbn [mbind option_bind]).
  eexists. split; [done|]. simpl. split.
  - by rewrite length_insert.
  - apply Forall_insert; [done|]. split.
    + by rewrite length_insert.
    + apply Forall_insert; [done|]. split.
      * by rewrite length_insert.
      * by apply Forall_insert.
Qed.

Lemma generate_shape P count size draws :
  0 ≤ count → 0 ≤ size → P 0 → (∀ n, P (draws n)) →
  ∃ matrices, Param.generate count size draws = Some matrices ∧
              collection_of P count size matrices.
Proof.
  intros Hcount Hsize HP0 HP. unfold Param.generate, vec_make.
  case_decide; [|lia]. case_decide; [|lia]. cbn [mbind option_bind].
  set (I := λ st : list Matrix * nat, collection_of P count size st.1).
  edestruct (for_range_invariant I 0 count) as (st & -> & Hst); [| |by eauto].
  - split; simpl.
    + rewrite length_replicate. lia.
    + apply Forall_replicate. split.
      * rewrite length_replicate. lia.
      * apply Forall_replicate. split.
        -- rewrite length_replicate. lia.
        -- by apply Forall_replicate.
  - intros i st1 Hi Hst1. apply for_range_invariant; [done|].
    intros j st2 Hj Hst2. apply for_range_invariant; [done|].
    intros k [matrices used] Hk Hst3. by apply fill_cell_shape.
Qed.

Lemma square_trace_is_Some P size matrix :
  square_of P size matrix → is_Some (Param.calculate_trace size matrix).
Proof.
  intros Hsq. apply calculate_trace_is_Some. intros i Hi.
  destruct (square_cell P size matrix i i Hsq) as (x & -> & _); done.
Qed.

Lemma collection_trial P count size matrices N :
  collection_of P count size matrices → count ≤ INT_MAX → 1 ≤ N ≤ INT_MAX →
  Param.trial count size matrices N = Some (wrap 64 (sumZ (traces size matrices))).
Proof.
  intros [Hlen Hall] Hcount HN. rewrite trial_sequential by lia.
  subst count. apply sequential_total.
  eapply Forall_impl; [exact Hall|]. intros matrix. apply square_trace_is_Some.
Qed.

(** X11.  When every value handed out by the distribution lies in
    [RANDOM_MIN, RANDOM_MAX], the generation succeeds and yields
    NUM_MATRICES matrices of MATRIX_SIZE x MATRIX_SIZE elements, all in
    [RANDOM_MIN, RANDOM_MAX]. *)
Lemma generate_program_collection draws :
  (∀ n, in_value_range RANDOM_MIN RANDOM_MAX (draws n)) →
  ∃ matrices, generate draws = Some matrices ∧ program_collection matrices.
Proof.
  intros Hdraws. apply generate_shape; [done|done| |done].
  unfold in_value_range, RANDOM_MIN, RANDOM_MAX. lia.
Qed.

(** C8.  main takes no arguments.  It generates one collection, runs one
    trial for each of the thread counts 1, 2, 4, 8, in this order, all
    against that collection, and returns 0; every trial prints the same
    total. *)
Theorem main_runs_fixed_trials (draws : nat → Z) :
  thread_counts = [1; 2; 4; 8] ∧
  ∃ matrices total,
    generate draws = Some matrices ∧
    collection_of (λ _, True) NUM_MATRICES MATRIX_SIZE matrices ∧
    Forall (λ num_threads, trial matrices num_threads = Some total)
           thread_counts ∧
    main draws = Some ([(1, total); (2, total); (4, total); (8, total)], 0).
Proof.
  split; [done|].
  destruct (generate_shape (λ _, True) NUM_MATRICES MATRIX_SIZE draws)
    as (matrices & Hgen & Hcoll); [done..|].
  exists matrices, (wrap 64 (sumZ (traces MATRIX_SIZE matrices))).
  assert (∀ N, 1 ≤ N ≤ 8 →
            Param.trial NUM_MATRICES MATRIX_SIZE matrices N =
            Some (wrap 64 (sumZ (traces MATRIX_SIZE matrices)))) as Htrial.
  { intros N HN. eapply collection_trial; [exact Hcoll|done|].
    unfold INT_MAX. lia. }
  split; [done|]. split; [done|]. split.
  - unfold thread_counts, Param.thread_counts, trial.
    repeat constructor; apply Htrial; lia.
  - unfold main, Param.main. unfold generate in Hgen. rewrite Hgen.
    cbn [mbind option_bind mapM Param.thread_counts].
    rewrite !Htrial by lia. done.
Qed.

(** ** Further properties of the reducer *)

(** X1.  calculate_trace depends on its argument only through the cells
    (i, i), i in [0, MATRIX_SIZE): two arguments that agree there, in value
    and in being in range, give the same result, whatever their other
    elements and dimensions. *)
Theorem calculate_trace_diagonal_only (matrix matrix' : Matrix) :
  (∀ i, 0 ≤ i < MATRIX_SIZE → cell matrix i i = cell matrix' i i) →
  calculate_trace matrix = calculate_trace matrix'.
Proof.
  intros Hdiag. unfold calculate_trace. rewrite !calculate_trace_reads.
  rewrite (Forall_mapM_ext _ (λ i, cell matrix' i i)); [done|].
  apply Forall_seqZ. intros i Hi. apply Hdiag. lia.
Qed.

Lemma calculate_trace_diagonal_only_witness :
  let matrix := replicate 50 (replicate 50 1) in
  let matrix' := (λ i, replicate i 7 ++ [1]) <$> seq 0 50 in
  calculate_trace matrix = calculate_trace matrix'.
Proof.
  intros matrix matrix'. apply calculate_trace_diagonal_only.
  assert (Forall (λ i, cell matrix i i = cell matrix' i i) (seqZ 0 50)) as H
    by (apply (bool_decide_unpack _); vm_compute; exact I).
  intros i Hi. apply (proj1 (Forall_seqZ _ _ _) H). unfold MATRIX_SIZE in Hi. lia.
Defined.

Lemma sumZ_replicate (n : nat) v : sumZ (replicate n v) = Z.of_nat n * v.
Proof.
  induction n as [|n IH]; [done|].
  cbn [replicate]. rewrite sumZ_cons, IH. lia.
Qed.

(** X2.  When all MATRIX_SIZE diagonal cells hold the same int value v,
    calculate_trace returns MATRIX_SIZE * v = 50 * v; in particular 0 for a
    matrix whose diagonal is zero. *)
Theorem calculate_trace_constant_diagonal (matrix : Matrix) (v : Z) :
  is_int v →
  (∀ i, 0 ≤ i < MATRIX_SIZE → cell matrix i i = Some v) →
  calculate_trace matrix = Some (50 * v).
Proof.
  intros Hv Hdiag. unfold calculate_trace. rewrite calculate_trace_reads.
  assert (mapM (λ i, cell matrix i i) (seqZ 0 MATRIX_SIZE) =
          Some (replicate 50 v)) as ->.
  { apply mapM_Some_2, Forall2_same_length_lookup_2.
    - by rewrite length_seqZ, length_replicate.
    - intros k i x Hi Hx. apply lookup_seqZ in Hi as [-> Hk].
      apply lookup_replicate in Hx as [-> _]. apply Hdiag. lia. }
  cbn [mbind option_bind]. f_equal. rewrite sumZ_replicate.
  change (Z.of_nat 50) with 50. apply ll_small.
  unfold is_int, is_ll, INT_MIN, INT_MAX, LLONG_MIN, LLONG_MAX in *. lia.
Qed.

Lemma calculate_trace_constant_diagonal_witness :
  calculate_trace ((λ i, replicate i 9 ++ [-3] ++ replicate (49 - i) 9) <$> seq 0 50)
  = Some (-150).
Proof.
  set (matrix := (λ i, replicate i 9 ++ [-3] ++ replicate (49 - i) 9) <$> seq 0 50).
  apply (calculate_trace_constant_diagonal matrix (-3)).
  - unfold is_int, INT_MIN, INT_MAX. lia.
  - assert (Forall (λ i, cell matrix i i = Some (-3)) (seqZ 0 50)) as H
      by (apply (bool_decide_unpack _); vm_compute; exact I).
    intros i Hi. apply (proj1 (Forall_seqZ _ _ _) H). unfold MATRIX_SIZE in Hi. lia.
Defined.

(** ** Further properties of the worker *)

Lemma matrix_trace_is_Some size matrices i :
  is_Some (matrix_trace size matrices i) ↔
  ∃ matrix, vec_at matrices i = Some matrix ∧
            is_Some (Param.calculate_trace size matrix).
Proof.
  unfold matrix_trace. destruct (vec_at matrices i) as [matrix|]; simpl.
  - split; [intros H; by exists matrix | by intros (m & [= <-] & H)].
  - split; [intros [? ?]; done | intros (? & ? & _); done].
Qed.

Lemma trace_worker_is_Some size matrices s e :
  is_Some (Param.trace_worker size matrices s e) ↔
  ∀ i, s ≤ i < e → is_Some (matrix_trace size matrices i).
Proof.
  rewrite trace_worker_sum, fmap_is_Some, mapM_is_Some.
  unfold indices. simpl. rewrite Forall_seqZ.
  split; intros H i Hi; apply H; lia.
Qed.

(** X3.  trace_worker has a result exactly when every index of its range
    [start_index, end_index) lies inside the collection and names a matrix
    on which calculate_trace has a result.  An empty or reversed range
    gives 0 without reading anything; a non-empty range that starts below 0
    or ends beyond the collection reads out of range. *)
Theorem trace_worker_defined_iff
    (size : Z) (matrices : list Matrix) (s e : Z) :
  (is_Some (Param.trace_worker size matrices s e) ↔
   ∀ i, s ≤ i < e →
        ∃ matrix, vec_at matrices i = Some matrix ∧
                  is_Some (Param.calculate_trace size matrix)) ∧
  (e ≤ s → Param.trace_worker size matrices s e = Some 0) ∧
  (s < e → s < 0 ∨ Z.of_nat (length matrices) < e →
   Param.trace_worker size matrices s e = None).
Proof.
  split; [|split].
  - rewrite trace_worker_is_Some. split; intros H i Hi.
    + by apply matrix_trace_is_Some, H.
    + by apply matrix_trace_is_Some, H.
  - intros Hle. unfold Param.trace_worker, for_range.
    by rewrite Z2Nat.nonpos by lia.
  - intros Hlt Hout. apply eq_None_not_Some. rewrite trace_worker_is_Some.
    intros H.
    assert (∃ i, s ≤ i < e ∧ (i < 0 ∨ Z.of_nat (length matrices) ≤ i))
      as (i & Hi & Hbad).
    { destruct Hout; [exists s; lia | exists (e - 1); lia]. }
    apply H, matrix_trace_is_Some in Hi as (matrix & Hm & _).
    assert (is_Some (vec_at matrices i)) as Hs by eauto.
    apply vec_at_is_Some in Hs. lia.
Qed.

Lemma trace_worker_defined_iff_witness :
  Param.trace_worker 1 [[[4]]; [[5]]] 2 2 = Some 0 ∧
  Param.trace_worker 1 [[[4]]; [[5]]] 1 3 = None.
Proof.
  destruct (trace_worker_defined_iff 1 [[[4]]; [[5]]] 2 2) as (_ & Hempty & _).
  destruct (trace_worker_defined_iff 1 [[[4]]; [[5]]] 1 3) as (_ & _ & Hout).
  split.
  - apply Hempty. lia.
  - apply Hout; [lia|]. right. simpl. lia.
Defined.

(** X4.  Splitting a range at any point m between its bounds, the worker's
    sum over [s, e) is the long long sum of its sums over [s, m) and
    [m, e); it has no result when either part has none. *)
Theorem trace_worker_split (size : Z) (matrices : list Matrix) (s m e : Z) :
  s ≤ m ≤ e →
  Param.trace_worker size matrices s e =
  a ← Param.trace_worker size matrices s m;
  b ← Param.trace_worker size matrices m e;
  Some (ll_add a b).
Proof.
  intros Hm. rewrite !trace_worker_sum. unfold indices. simpl.
  rewrite <- (seqZ_split s m e) by done. rewrite mapM_app.
  destruct (mapM _ (seqZ s (m - s))) as [xs|]; simpl; [|done].
  destruct (mapM _ (seqZ m (e - m))) as [ys|]; simpl; [|done].
  f_equal. unfold ll_add. by rewrite sumZ_app, wrap_add_l, wrap_add_r.
Qed.

Lemma trace_worker_split_witness :
  let matrices := [ [[1; 2]; [3; 4]]; [[5; 6]; [7; 8]]; [[-9; 0]; [0; 2]] ] in
  Param.trace_worker 2 matrices 0 3 = Some (ll_add 5 6) ∧
  Param.trace_worker 2 matrices 0 3 = Some 11.
Proof.
  intros matrices.
  assert (0 ≤ 1 ≤ 3) as H by lia.
  pose proof (trace_worker_split 2 matrices 0 1 3 H) as Hsplit.
  split; [exact Hsplit|reflexivity].
Defined.

(** ** Further properties of a trial *)

(** X5.  A trial needs a positive thread count: with num_threads = 0 the
    division NUM_MATRICES / num_threads has a zero divisor, and a negative
    num_threads is not a size for partial_results; in both cases the trial
    has no result. *)
Theorem trial_needs_positive_thread_count
    (M size : Z) (matrices : list Matrix) (N : Z) :
  N ≤ 0 →
  Param.trial_slots M size matrices N = None ∧
  Param.trial M size matrices N = None.
Proof.
  intros HN. assert (Param.trial_slots M size matrices N = None) as Hs.
  { unfold Param.trial_slots, vec_make, Param.launch, int_div.
    destruct (decide (N = 0)) as [->|Hne].
    - done.
    - case_decide; [lia|done]. }
  split; [done|]. unfold Param.trial. by rewrite Hs.
Qed.

Lemma trial_needs_positive_thread_count_witness :
  Param.trial 3 2 (replicate 3 [[1; 2]; [3; 4]]) 0 = None ∧
  Param.trial 3 2 (replicate 3 [[1; 2]; [3; 4]]) (-2) = None.
Proof.
  split.
  - apply (trial_needs_positive_thread_count 3 2 _ 0). lia.
  - apply (trial_needs_positive_thread_count 3 2 _ (-2)). lia.
Defined.

Lemma matrix_trace_take size matrices (n : nat) i :
  i < Z.of_nat n →
  matrix_trace size (take n matrices) i = matrix_trace size matrices i.
Proof.
  intros Hi. unfold matrix_trace, vec_at. case_decide; [|done].
  by rewrite lookup_take_lt by lia.
Qed.

(** X6.  A trial reads the matrices at the indices [0, NUM_MATRICES) and
    no others: matrices beyond the first NUM_MATRICES do not influence the
    total, a collection shorter than NUM_MATRICES makes a worker read out
    of range, and the trial has a result exactly when the collection holds
    at least NUM_MATRICES matrices and calculate_trace has a result on each
    of the first NUM_MATRICES. *)
Theorem trial_reads_first_matrices
    (M size : Z) (matrices : list Matrix) (N : Z) :
  0 ≤ M ≤ INT_MAX → 1 ≤ N ≤ INT_MAX →
  Param.trial M size matrices N =
    Param.trial M size (take (Z.to_nat M) matrices) N ∧
  (Z.of_nat (length matrices) < M → Param.trial M size matrices N = None) ∧
  (is_Some (Param.trial M size matrices N) ↔
   M ≤ Z.of_nat (length matrices) ∧
   Forall (λ matrix, is_Some (Param.calculate_trace size matrix))
          (take (Z.to_nat M) matrices)).
Proof.
  intros HM HN. rewrite !trial_sequential by done.
  assert (is_Some (Param.trace_worker size matrices 0 M) ↔
          M ≤ Z.of_nat (length matrices) ∧
          Forall (λ matrix, is_Some (Param.calculate_trace size matrix))
                 (take (Z.to_nat M) matrices)) as Hiff.
  { rewrite trace_worker_is_Some. split.
    - intros H. assert (M ≤ Z.of_nat (length matrices)) as Hlen.
      { destruct (decide (M = 0)) as [->|Hpos]; [lia|].
        destruct (proj1 (matrix_trace_is_Some size matrices (M - 1)))
          as (matrix & Hm & _); [apply H; lia|].
        assert (is_Some (vec_at matrices (M - 1))) as Hs by eauto.
        apply vec_at_is_Some in Hs. lia. }
      split; [done|]. apply Forall_lookup. intros k matrix Hk.
      apply lookup_take_Some in Hk as [Hk Hlt].
      destruct (proj1 (matrix_trace_is_Some size matrices (Z.of_nat k)))
        as (matrix' & Hm & Hc); [apply H; lia|].
      rewrite vec_at_nat, Hk in Hm. by injection Hm as <-.
    - intros [Hlen Hall] i Hi. apply matrix_trace_is_Some.
      destruct (vec_at_is_Some matrices i) as [_ [matrix Hm]]; [lia|].
      exists matrix. split; [done|].
      apply vec_at_Some in Hm as [_ Hm]. rewrite Forall_lookup in Hall.
      apply (Hall (Z.to_nat i)). apply lookup_take_Some. split; [done|lia]. }
  split; [|split].
  - rewrite !trace_worker_sum. f_equal. apply Forall_mapM_ext.
    unfold indices. simpl. apply Forall_seqZ. intros i Hi.
    symmetry. apply matrix_trace_take. lia.
  - intros Hshort. apply eq_None_not_Some. rewrite Hiff. lia.
  - done.
Qed.

Lemma trial_reads_first_matrices_witness :
  let matrices := [ [[1; 2]; [3; 4]]; [[5; 6]; [7; 8]]; [[9]] ] in
  Param.trial 2 2 matrices 2 = Some 18 ∧ Param.trial 3 2 matrices 2 = None.
Proof.
  intros matrices.
  assert (1 ≤ 2 ≤ INT_MAX) as HN by (unfold INT_MAX; lia).
  assert (0 ≤ 2 ≤ INT_MAX) as H2 by (unfold INT_MAX; lia).
  assert (0 ≤ 3 ≤ INT_MAX) as H3 by (unfold INT_MAX; lia).
  destruct (trial_reads_first_matrices 2 2 matrices 2 H2 HN) as (Heq & _ & _).
  destruct (trial_reads_first_matrices 3 2 matrices 2 H3 HN) as (_ & _ & Hiff).
  split.
  - rewrite Heq. reflexivity.
  - apply eq_None_not_Some. rewrite Hiff. intros [_ Hall].
    apply Forall_lookup_1 with (i := 2%nat) (x := [[9]]) in Hall; [|reflexivity].
    destruct Hall as [t Ht]. vm_compute in Ht. discriminate Ht.
Defined.

(** X7.  For every positive thread count, also one above NUM_MATRICES,
    the launch loop creates exactly num_threads threads; the k-th one
    holds slot k of partial_results, and its bounds satisfy
    0 <= start_index <= end_index <= NUM_MATRICES, so that no thread is
    handed an index outside the collection. *)
Theorem launch_threads_in_bounds (M N : Z) :
  0 ≤ M ≤ INT_MAX → 1 ≤ N ≤ INT_MAX →
  ∃ threads,
    Param.launch M N = Some threads ∧
    Z.of_nat (length threads) = N ∧
    ∀ (k : nat) t, threads !! k = Some t →
      Param.t_slot t = Z.of_nat k ∧
      0 ≤ Param.t_start t ≤ Param.t_end t ∧ Param.t_end t ≤ M.
Proof.
  intros HM HN. eexists. split; [by apply launch_exact|]. split.
  - rewrite length_fmap, length_seqZ. lia.
  - intros k t Ht. rewrite list_lookup_fmap in Ht.
    destruct (seqZ 0 N !! k) as [i|] eqn:Hi; [|done].
    apply lookup_seqZ in Hi as [-> Hk]. injection Ht as <-. simpl.
    rewrite Z.add_0_l. split; [done|].
    apply range_spec_bounds; lia.
Qed.

Lemma launch_threads_in_bounds_witness :
  ∃ threads, Param.launch 2 5 = Some threads ∧ Z.of_nat (length threads) = 5.
Proof.
  assert (0 ≤ 2 ≤ INT_MAX) as HM by (unfold INT_MAX; lia).
  assert (1 ≤ 5 ≤ INT_MAX) as HN by (unfold INT_MAX; lia).
  destruct (launch_threads_in_bounds 2 5 HM HN) as (threads & Hl & Hlen & _).
  exists threads. split; [exact Hl | exact Hlen].
Defined.

(** X13.  When num_threads divides NUM_MATRICES the split is even: every
    thread, the last one included, receives exactly
    NUM_MATRICES / num_threads matrices. *)
Theorem partitions_even_when_divisible (M N : Z) (k : nat) (r : Z * Z) :
  0 ≤ M ≤ INT_MAX → 1 ≤ N ≤ INT_MAX → M `mod` N = 0 →
  partitions M N !! k = Some r → range_size r = M / N.
Proof.
  intros HM HN Hmod Hr. apply partitions_lookup in Hr as [Hk ->]; [|done..].
  pose proof (Z.div_mod M N ltac:(lia)) as Hdiv.
  unfold range_size, range_spec. case_decide; simpl; lia.
Qed.

Lemma partitions_even_when_divisible_witness :
  range_size (6, 8) = 2.
Proof.
  assert (0 ≤ 8 ≤ INT_MAX) as HM by (unfold INT_MAX; lia).
  assert (1 ≤ 4 ≤ INT_MAX) as HN by (unfold INT_MAX; lia).
  assert (8 `mod` 4 = 0) as Hmod by reflexivity.
  assert (partitions 8 4 !! 3%nat = Some (6, 8)) as Hr by reflexivity.
  exact (partitions_even_when_divisible 8 4 3 (6, 8) HM HN Hmod Hr).
Defined.

Lemma sumZ_Permutation xs ys : xs ≡ₚ ys → sumZ xs = sumZ ys.
Proof.
  induction 1 as [|x xs ys _ IH|x y xs|xs ys zs _ IH1 _ IH2].
  - done.
  - by rewrite !sumZ_cons, IH.
  - rewrite !sumZ_cons. lia.
  - by rewrite IH1.
Qed.

(** X9.  The aggregation does not depend on the order of the slots: the
    long long total of any rearrangement of partial_results is the same,
    also when the additions wrap. *)
Theorem aggregate_order_independent (xs ys : list Z) :
  xs ≡ₚ ys → Param.aggregate xs = Param.aggregate ys.
Proof.
  intros Hperm. by rewrite !aggregate_sum, (sumZ_Permutation xs ys).
Qed.

Lemma aggregate_order_independent_witness :
  Param.aggregate [LLONG_MAX; 1; -1] = Param.aggregate [1; LLONG_MAX; -1].
Proof.
  apply aggregate_order_independent. apply perm_swap.
Defined.

(** ** Further properties of the generation *)

Lemma for_loop_invariant_ix {St} (I : Z → St → Prop) (n : nat) body :
  ∀ i (s : St),
  I i s →
  (∀ j s, i ≤ j < i + Z.of_nat n → I j s →
          ∃ s', body j s = Some s' ∧ I (j + 1) s') →
  ∃ s', for_loop n i body s = Some s' ∧ I (i + Z.of_nat n) s'.
Proof.
  induction n as [|n IH]; intros i s Hs Hbody.
  - exists s. split; [done|]. by rewrite Z.add_0_r.
  - destruct (Hbody i s) as (s1 & Hs1 & HI1); [lia|done|].
    cbn [for_loop]. rewrite Hs1. cbn [mbind option_bind].
    destruct (IH (i + 1) s1 HI1) as (s2 & Hs2 & HI2).
    { intros j s3 Hj. apply Hbody. lia. }
    exists s2. split; [done|].
    by replace (i + Z.of_nat (S n)) with (i + 1 + Z.of_nat n) by lia.
Qed.

Lemma for_range_invariant_ix {St} (I : Z → St → Prop) lo hi body (s : St) :
  lo ≤ hi → I lo s →
  (∀ j s, lo ≤ j < hi → I j s → ∃ s', body j s = Some s' ∧ I (j + 1) s') →
  ∃ s', for_range lo hi body s = Some s' ∧ I hi s'.
Proof.
  intros Hle Hs Hbody.
  destruct (for_loop_invariant_ix I (Z.to_nat (hi - lo)) body lo s Hs)
    as (s' & Hs' & HI).
  { intros j s1 Hj. apply Hbody. lia. }
  exists s'. split; [done|].
  by replace (lo + Z.of_nat (Z.to_nat (hi - lo))) with hi in HI by lia.
Qed.

Lemma vec_at_insert {A} (v : list A) i x i' :
  0 ≤ i < Z.of_nat (length v) →
  vec_at (<[Z.to_nat i := x]> v) i' = if decide (i' = i) then Some x else vec_at v i'.
Proof.
  intros Hi. unfold vec_at. case_decide as Hi'.
  - case_decide as Heq.
    + subst i'. apply list_lookup_insert_eq. lia.
    + apply list_lookup_insert_ne. lia.
  - case_decide; [lia|done].
Qed.

Lemma cell3_fill matrices i j k v matrix row i' j' k' :
  vec_at matrices i = Some matrix → vec_at matrix j = Some row →
  0 ≤ k < Z.of_nat (length row) →
  cell3 (<[Z.to_nat i := <[Z.to_nat j := <[Z.to_nat k := v]> row]> matrix]>
           matrices) i' j' k' =
  if decide (i' = i ∧ j' = j ∧ k' = k) then Some v else cell3 matrices i' j' k'.
Proof.
  intros Hm Hr Hk.
  assert (0 ≤ i < Z.of_nat (length matrices)) as Hi
    by (apply vec_at_is_Some; eauto).
  assert (0 ≤ j < Z.of_nat (length matrix)) as Hj
    by (apply vec_at_is_Some; eauto).
  unfold cell3, cell. rewrite vec_at_insert by done.
  destruct (decide (i' = i)) as [->|Hne]; cbn [mbind option_bind].
  - rewrite Hm. cbn [mbind option_bind]. rewrite vec_at_insert by done.
    destruct (decide (j' = j)) as [->|Hne]; cbn [mbind option_bind].
    + rewrite Hr. cbn [mbind option_bind]. rewrite vec_at_insert by done.
      destruct (decide (k' = k)) as [->|Hne].
      * by rewrite decide_True.
      * rewrite decide_False; [done|]. by intros (_ & _ & ?).
    + rewrite decide_False; [done|]. by intros (_ & ? & _).
  - rewrite decide_False; [done|]. by intros (? & _ & _).
Qed.

(** Distinct cells have distinct linear positions. *)
Lemma linear_position_inj S i j k i' j' k' :
  0 ≤ j < S → 0 ≤ k < S → 0 ≤ j' < S → 0 ≤ k' < S →
  i * S * S + j * S + k = i' * S * S + j' * S + k' →
  i = i' ∧ j = j' ∧ k = k'.
Proof.
  intros Hj Hk Hj' Hk' Heq.
  assert (j * S + k < S * S) as Ha by nia.
  assert (j' * S + k' < S * S) as Ha' by nia.
  assert (i = i') as -> by nia.
  assert (j = j') as -> by nia.
  split; [done|]. split; [done|]. lia.
Qed.

Lemma fill_cell_filled draws count size i j k matrices used :
  0 ≤ i < count → 0 ≤ j < size → 0 ≤ k < size →
  filled_upto draws count size (i * size * size + j * size + k) (matrices, used) →
  ∃ st, Param.fill_cell draws i j k (matrices, used) = Some st ∧
        filled_upto draws count size (i * size * size + j * size + k + 1) st.
Proof.
  intros Hi Hj Hk (Hused & Hshape & Hcells). simpl in Hused, Hshape, Hcells.
  assert (0 ≤ i * size * size + j * size + k) as Hpos by nia.
  destruct (fill_cell_shape (λ _, True) count size draws i j k matrices used)
    as (st & Hst & Hshape'); [done..|].
  exists st. split; [done|].
  unfold Param.fill_cell in Hst. destruct Hshape as [Hlen Hall].
  destruct (vec_at_is_Some matrices i) as [_ [matrix Hm]]; [lia|].
  rewrite Hm in Hst. cbn [mbind option_bind] in Hst.
  pose proof Hm as Hm'. apply vec_at_Some in Hm' as [_ Hm'].
  pose proof (proj1 (Forall_lookup _ _) Hall _ _ Hm') as [Hrows Hsq].
  destruct (vec_at_is_Some matrix j) as [_ [row Hr]]; [lia|].
  rewrite Hr in Hst. cbn [mbind option_bind] in Hst.
  pose proof Hr as Hr'. apply vec_at_Some in Hr' as [_ Hr'].
  pose proof (proj1 (Forall_lookup _ _) Hsq _ _ Hr') as [Hcols _].
  do 3 (rewrite vec_set_Some in Hst by lia; cbn [mbind option_bind] in Hst).
  injection Hst as <-. split; [|split].
  - simpl. lia.
  - done.
  - intros i' j' k' Hi' Hj' Hk' Hlt. simpl.
    rewrite (cell3_fill matrices i j k _ matrix row) by (done || lia).
    case_decide as Hsame.
    + destruct Hsame as (-> & -> & ->). by rewrite Hused.
    + apply Hcells; [done..|].
      destruct (decide (i' * size * size + j' * size + k'
                        = i * size * size + j * size + k)) as [Heq|]; [|lia].
      exfalso. apply Hsame. by apply (linear_position_inj size).
Qed.

Lemma generate_filled draws count size :
  0 ≤ count → 0 ≤ size →
  ∃ matrices, Param.generate count size draws = Some matrices ∧
    ∃ used, filled_upto draws count size (count * size * size) (matrices, used).
Proof.
  intros Hcount Hsize. unfold Param.generate, vec_make.
  case_decide; [|lia]. case_decide; [|lia]. cbn [mbind option_bind].
  edestruct (for_range_invariant_ix
               (λ i, filled_upto draws count size (i * size * size)) 0 count)
    as ([matrices used] & -> & Hst); [done| | |by eauto].
  - split; [done|]. split.
    + split; simpl.
      * rewrite length_replicate. lia.
      * apply Forall_replicate. split.
        -- rewrite length_replicate. lia.
        -- apply Forall_replicate. split; [|by apply Forall_replicate].
           rewrite length_replicate. lia.
    + intros i j k Hi Hj Hk Hlt. nia.
  - intros i st Hi Hst.
    replace ((i + 1) * size * size) with (i * size * size + size * size) by lia.
    apply (for_range_invariant_ix
             (λ j, filled_upto draws count size (i * size * size + j * size)));
      [done|by rewrite Z.add_0_r|].
    intros j st1 Hj Hst1.
    replace (i * size * size + (j + 1) * size)
      with (i * size * size + j * size + size) by lia.
    apply (for_range_invariant_ix
             (λ k, filled_upto draws count size (i * size * size + j * size + k)));
      [done|by rewrite Z.add_0_r|].
    intros k [matrices used] Hk Hst2.
    replace (i * size * size + j * size + (k + 1))
      with (i * size * size + j * size + k + 1) by lia.
    by apply fill_cell_filled.
Qed.

Lemma generate_program_collection_witness :
  ∃ matrices, generate (λ n, Z.of_nat (n `mod` 7) - 3) = Some matrices ∧
              program_collection matrices.
Proof.
  apply (generate_program_collection (λ n, Z.of_nat (n `mod` 7) - 3)).
  intros n. unfold in_value_range, RANDOM_MIN, RANDOM_MAX.
  pose proof (Nat.mod_upper_bound n 7). lia.
Defined.

(** X10.  The generation fills every cell, in row-major order and with one
    draw per cell: for constants count, size >= 0 it succeeds, keeps the
    count x size x size dimensions, and afterwards matrices[i][j][k] holds
    draw number i*size*size + j*size + k (counted from 0), so no cell keeps
    its initial 0 and no draw is stored twice. *)
Theorem generate_fills_in_row_major_order
    (count size : Z) (draws : nat → Z) :
  0 ≤ count → 0 ≤ size →
  ∃ matrices,
    Param.generate count size draws = Some matrices ∧
    collection_of (λ _, True) count size matrices ∧
    ∀ i j k, 0 ≤ i < count → 0 ≤ j < size → 0 ≤ k < size →
      cell3 matrices i j k =
        Some (draws (Z.to_nat (i * size * size + j * size + k))).
Proof.
  intros Hcount Hsize.
  destruct (generate_filled draws count size Hcount Hsize)
    as (matrices & Hgen & used & _ & Hshape & Hcells).
  exists matrices. split; [done|]. split; [done|].
  intros i j k Hi Hj Hk. apply Hcells; [done..|]. nia.
Qed.

Lemma generate_fills_in_row_major_order_witness :
  Param.generate 2 2 Z.of_nat = Some [ [[0; 1]; [2; 3]]; [[4; 5]; [6; 7]] ] ∧
  ∃ matrices, Param.generate 2 2 Z.of_nat = Some matrices ∧
              cell3 matrices 1 0 1 = Some 5.
Proof.
  split; [reflexivity|].
  destruct (generate_fills_in_row_major_order 2 2 Z.of_nat)
    as (matrices & Hgen & _ & Hcells); [lia|lia|].
  exists matrices. split; [exact Hgen|].
  apply (Hcells 1 0 1); lia.
Defined.

(** ** The printed totals as a function of the draws *)

Lemma generated_trace draws matrices i matrix :
  (∀ i j k, 0 ≤ i < NUM_MATRICES → 0 ≤ j < MATRIX_SIZE → 0 ≤ k < MATRIX_SIZE →
     cell3 matrices i j k =
       Some (draws (Z.to_nat (i * MATRIX_SIZE * MATRIX_SIZE + j * MATRIX_SIZE + k)))) →
  0 ≤ i < NUM_MATRICES → vec_at matrices i = Some matrix →
  trace_spec MATRIX_SIZE matrix =
  sumZ ((λ d, draws (Z.to_nat (2500 * i + 51 * d))) <$> seqZ 0 50).
Proof.
  intros Hcells Hi Hm. unfold trace_spec, diagonal. f_equal.
  apply Forall_fmap_ext_1, Forall_seqZ. intros d Hd.
  specialize (Hcells i d d Hi ltac:(done) ltac:(done)).
  unfold cell3 in Hcells. rewrite Hm in Hcells. simpl in Hcells.
  rewrite Hcells. simpl. do 2 f_equal. unfold MATRIX_SIZE. lia.
Qed.

(** X12.  When every value handed out by the distribution lies in
    [RANDOM_MIN, RANDOM_MAX], each of the four trials of main prints the
    same total: the exact sum, over the matrices i < 1000 and the diagonal
    positions d < 50, of draw number 2500*i + 51*d; it lies in
    [-5000000, 5000000], and main returns 0. *)
Theorem main_prints_sum_of_diagonal_draws (draws : nat → Z) :
  (∀ n, in_value_range RANDOM_MIN RANDOM_MAX (draws n)) →
  main draws =
    Some ([(1, expected_total draws); (2, expected_total draws);
           (4, expected_total draws); (8, expected_total draws)], 0) ∧
  -5000000 ≤ expected_total draws ≤ 5000000.
Proof.
  intros Hdraws.
  destruct (generate_filled draws NUM_MATRICES MATRIX_SIZE)
    as (matrices & Hgen & used & _ & Hshape & Hcells); [done..|].
  simpl in Hshape, Hcells.
  destruct (generate_shape (in_value_range RANDOM_MIN RANDOM_MAX)
              NUM_MATRICES MATRIX_SIZE draws) as (matrices' & Hgen' & Hcoll);
    [done|done|unfold in_value_range, RANDOM_MIN, RANDOM_MAX; lia|done|].
  rewrite Hgen in Hgen'. injection Hgen' as <-.
  assert (∀ i j k, 0 ≤ i < NUM_MATRICES → 0 ≤ j < MATRIX_SIZE →
            0 ≤ k < MATRIX_SIZE →
            cell3 matrices i j k =
              Some (draws (Z.to_nat (i * MATRIX_SIZE * MATRIX_SIZE
                                     + j * MATRIX_SIZE + k)))) as Hcells'.
  { intros i j k Hi Hj Hk. apply Hcells; [done..|]. unfold NUM_MATRICES, MATRIX_SIZE in *. lia. }
  assert (traces MATRIX_SIZE matrices =
          (λ i, sumZ ((λ d, draws (Z.to_nat (2500 * i + 51 * d))) <$> seqZ 0 50))
            <$> seqZ 0 1000) as Htraces.
  { destruct Hcoll as [Hlen Hall]. apply list_eq. intros k.
    unfold traces. rewrite !list_lookup_fmap.
    destruct (decide (Z.of_nat k < 1000)) as [Hk|Hk].
    - rewrite lookup_seqZ_lt by done.
      destruct (lookup_lt_is_Some_2 matrices k) as [matrix Hm];
        [unfold NUM_MATRICES in Hlen; lia|].
      rewrite Hm. simpl. f_equal.
      destruct (program_matrix_trace matrix) as (_ & Ht & _).
      { rewrite Forall_lookup in Hall. by eapply Hall. }
      unfold calculate_trace in Ht. rewrite Ht. simpl.
      rewrite (generated_trace draws matrices (Z.of_nat k)); [done|done| |].
      + unfold NUM_MATRICES. lia.
      + by rewrite vec_at_nat.
    - rewrite lookup_seqZ_ge by lia.
      rewrite lookup_ge_None_2; [done|]. unfold NUM_MATRICES in Hlen. lia. }
  assert (Forall (in_value_range (-5000) 5000) (traces MATRIX_SIZE matrices))
    as Hbounds.
  { destruct Hcoll as [_ Hall]. apply Forall_fmap.
    eapply Forall_impl; [exact Hall|]. intros matrix Hsq. cbv [compose].
    destruct (program_matrix_trace matrix Hsq) as (_ & Ht & Hb).
    unfold calculate_trace in Ht. by rewrite Ht. }
  pose proof (sumZ_bounds _ _ _ Hbounds) as Hsum.
  assert (Z.of_nat (length (traces MATRIX_SIZE matrices)) = 1000) as Hlen.
  { unfold traces. rewrite length_fmap. by destruct Hcoll. }
  assert (expected_total draws = sumZ (traces MATRIX_SIZE matrices)) as Hexp
    by (by rewrite Htraces).
  assert (∀ N, 1 ≤ N ≤ 8 →
            Param.trial NUM_MATRICES MATRIX_SIZE matrices N =
            Some (expected_total draws)) as Htrial.
  { intros N HN. erewrite collection_trial; [|exact Hcoll|done|unfold INT_MAX; lia].
    f_equal. rewrite Hexp. apply ll_small.
    unfold is_ll, LLONG_MIN, LLONG_MAX. lia. }
  split; [|rewrite Hexp; lia].
  unfold main, Param.main. rewrite Hgen.
  cbn [mbind option_bind mapM Param.thread_counts].
  rewrite !Htrial by lia. done.
Qed.

Lemma main_prints_sum_of_diagonal_draws_witness :
  ∃ total, main (λ n, Z.of_nat (n `mod` 7) - 3)
           = Some ([(1, total); (2, total); (4, total); (8, total)], 0) ∧
           -5000000 ≤ total ≤ 5000000.
Proof.
  destruct (main_prints_sum_of_diagonal_draws (λ n, Z.of_nat (n `mod` 7) - 3))
    as [Hmain Hb].
  - intros n. unfold in_value_range, RANDOM_MIN, RANDOM_MAX.
    pose proof (Nat.mod_upper_bound n 7). lia.
  - eexists. split; [exact Hmain | exact Hb].
Defined.

(** ** The order of the matrices *)

Lemma mapM_matrix_trace_all size matrices :
  mapM (matrix_trace size matrices) (seqZ 0 (Z.of_nat (length matrices))) =
  mapM (Param.calculate_trace size) matrices.
Proof.
  destruct (mapM (Param.calculate_trace size) matrices) as [ts|] eqn:Hts.
  - apply mapM_Some_2, Forall2_same_length_lookup_2.
    + apply length_mapM in Hts. rewrite length_seqZ. lia.
    + intros k i t Hi Ht. apply lookup_seqZ in Hi as [-> Hk].
      apply mapM_Some_1 in Hts.
      destruct (lookup_lt_is_Some_2 matrices k) as [matrix Hm]; [lia|].
      pose proof (Forall2_lookup_lr _ _ _ _ _ _ Hts Hm Ht) as Hc.
      unfold matrix_trace. by rewrite Z.add_0_l, vec_at_nat, Hm.
  - apply mapM_None_2. apply mapM_None_1 in Hts.
    apply Exists_exists in Hts as (matrix & Hin & Hnone).
    apply list_elem_of_lookup in Hin as [k Hk].
    apply Exists_exists. exists (Z.of_nat k). split.
    + apply elem_of_seqZ. apply lookup_lt_Some in Hk. lia.
    + unfold matrix_trace. by rewrite vec_at_nat, Hk.
Qed.

Lemma mapM_Permutation {A B} (f : A → option B) l l' :
  l ≡ₚ l' →
  match mapM f l, mapM f l' with
  | Some ys, Some ys' => ys ≡ₚ ys'
  | None, None => True
  | _, _ => False
  end.
Proof.
  induction 1 as [|x l l' _ IH|x y l|l1 l2 l3 _ IH1 _ IH2].
  - simpl. done.
  - cbn [mapM]. destruct (f x); cbn [mbind option_bind]; [|done].
    destruct (mapM f l), (mapM f l'); cbn [mbind option_bind]; try done.
    by constructor.
  - cbn [mapM]. destruct (f x), (f y); cbn [mbind option_bind]; try done;
      destruct (mapM f l); cbn [mbind option_bind]; try done.
    apply perm_swap.
  - destruct (mapM f l1), (mapM f l2), (mapM f l3); try done.
    by etrans.
Qed.

(** X14.  The total of a trial does not depend on the order of the
    matrices in the collection: for two collections of NUM_MATRICES
    matrices that are rearrangements of each other, a trial with any
    positive thread count gives the same total, or has no result for
    both. *)
Theorem trial_collection_order_irrelevant
    (M size : Z) (matrices matrices' : list Matrix) (N : Z) :
  Z.of_nat (length matrices) = M → M ≤ INT_MAX → 1 ≤ N ≤ INT_MAX →
  matrices ≡ₚ matrices' →
  Param.trial M size matrices N = Param.trial M size matrices' N.
Proof.
  intros Hlen HM HN Hperm.
  assert (Z.of_nat (length matrices') = M) as Hlen'
    by (by rewrite <- Hperm).
  rewrite !trial_sequential by lia. rewrite !trace_worker_sum.
  unfold indices. simpl. rewrite Z.sub_0_r.
  rewrite <- Hlen at 1. rewrite <- Hlen'. rewrite !mapM_matrix_trace_all.
  pose proof (mapM_Permutation (Param.calculate_trace size) _ _ Hperm) as H.
  destruct (mapM _ matrices), (mapM _ matrices'); simpl; try done.
  f_equal. by rewrite (sumZ_Permutation _ _ H).
Qed.

Lemma trial_collection_order_irrelevant_witness :
  Param.trial 3 2 [ [[1; 2]; [3; 4]]; [[5; 6]; [7; 8]]; [[-9; 0]; [0; 2]] ] 2 =
  Param.trial 3 2 [ [[5; 6]; [7; 8]]; [[1; 2]; [3; 4]]; [[-9; 0]; [0; 2]] ] 2.
Proof.
  apply (trial_collection_order_irrelevant 3 2).
  - reflexivity.
  - unfold INT_MAX. lia.
  - unfold INT_MAX. lia.
  - apply perm_swap.
Defined.

(** ** The scheme on small inputs *)

Example trial_small :
  Param.trial 3 2 (replicate 3 [[1;2];[3;4]]) 3 = Some 15.
Proof. vm_compute. reflexivity. Qed.

Example main_small :
  Param.main 3 2 (λ n, Z.of_nat n) = Some ([(1, 33); (2, 33); (4, 33); (8, 33)], 0).
Proof. vm_compute. reflexivity. Qed.
